(** * Gusto dynamical core: forcing, physics, thermodynamics and state output

    A shallow embedding of the parts of [gusto/forcing.py], [gusto/physics.py],
    [gusto/expressions.py], [gusto/transport_equation.py] and [gusto/state.py]
    that carry the behaviour described in the specification, with the
    properties proved about them.

    Conventions.
    - Field values are real numbers ([R]); a finite-element [Function] is the
      vector of its nodal coefficients, [dofs := nat -> R], indexed by node
      number.
    - [conditional(c, a, b)], [max_value] and [min_value] of UFL are the
      node-wise [if], [Rmax] and [Rmin].
    - The finite-element substrate (assembly of a linear form, the mass-matrix
      solve) is not part of the repository; it is a record of functions the
      development is parametric in. *)

From Stdlib Require Import Reals Lra Lia ZArith List FunctionalExtensionality.
From stdpp Require Import gmap strings list.

Open Scope R_scope.

(** ** Real powers

    Python's [x ** y] and [pow(x, y)] on non-negative reals: [0 ** y] is [0]
    for [y <> 0] and [1] for [y = 0]; for a positive base it is
    [exp (y * ln x)].  A negative base with a fractional exponent has no real
    value and is outside the model. *)

Definition power (x y : R) : R :=
  if Req_dec_T x 0 then (if Req_dec_T y 0 then 1 else 0) else Rpower x y.

Lemma power_pos (x y : R) : 0 < x -> power x y = Rpower x y.
Proof.
  intros Hx. unfold power. destruct (Req_dec_T x 0) as [E|_]; [lra | reflexivity].
Qed.

Lemma power_one (y : R) : power 1 y = 1.
Proof.
  rewrite power_pos by lra. unfold Rpower. rewrite ln_1, Rmult_0_r. apply exp_0.
Qed.

Lemma power_zero (y : R) : y <> 0 -> power 0 y = 0.
Proof.
  intros Hy. unfold power. destruct (Req_dec_T 0 0) as [_|N]; [|contradiction].
  destruct (Req_dec_T y 0); [contradiction | reflexivity].
Qed.

Lemma power_gt_0 (x y : R) : 0 < x -> 0 < power x y.
Proof. intros Hx. rewrite power_pos by assumption. apply exp_pos. Qed.

(** ** Thermodynamic expressions ([gusto/expressions.py], [exner] of
    [gusto/forcing.py]) *)

Module Thermodynamics.

(** The attributes of [state.parameters] the expressions read. *)
Record parameters : Type := {
  R_d : R; p_0 : R; kappa : R; R_v : R;
  cp : R; cv : R; c_pv : R; c_pl : R; c_vv : R;
  L_v0 : R; T_0 : R;
  w_sat1 : R; w_sat2 : R; w_sat3 : R; w_sat4 : R }.

(** [forcing.py: exner(theta, rho, state)] *)
Definition exner (P : parameters) (theta rho : R) : R :=
  power (R_d P / p_0 P) (kappa P / (1 - kappa P))
  * power (rho * theta) (kappa P / (1 - kappa P)).

(** [expressions.py: theta_expr] *)
Definition theta_expr (P : parameters) (T p : R) : R :=
  T * power (p_0 P / p) (kappa P).

(** [expressions.py: pi_expr] *)
Definition pi_expr (P : parameters) (rho theta_v : R) : R :=
  power (rho * R_d P * theta_v / p_0 P) (kappa P / (1 - kappa P)).

(** [expressions.py: p_expr] *)
Definition p_expr (P : parameters) (pi : R) : R :=
  p_0 P * power pi (1 / kappa P).

(** [expressions.py: T_expr]; [r_v] is [None] for dry air. *)
Definition T_expr (P : parameters) (theta_v pi : R) (r_v : option R) : R :=
  match r_v with
  | Some r => theta_v * pi / (1 + r * R_v P / R_d P)
  | None => theta_v * pi
  end.

(** [expressions.py: rho_expr] *)
Definition rho_expr (P : parameters) (theta_v pi : R) : R :=
  p_0 P * power pi (1 / kappa P - 1) / (R_d P * theta_v).

(** [expressions.py: r_sat_expr] *)
Definition r_sat_expr (P : parameters) (T p : R) : R :=
  w_sat1 P / (p * exp (w_sat2 P * (T - T_0 P) / (T - w_sat3 P)) - w_sat4 P).

(** [expressions.py: Lv_expr] *)
Definition Lv_expr (P : parameters) (T : R) : R :=
  L_v0 P - (c_pl P - c_pv P) * (T - T_0 P).

(** C9. The Exner pressure of [forcing.py] and the one of [expressions.py]
    agree: for positive [rho], [theta] and positive [R_d], [p_0], [kappa]
    with [kappa <> 1], [exner theta rho = pi_expr rho theta]. *)
Theorem exner_eq_pi_expr (P : parameters) (rho theta : R) :
  0 < rho -> 0 < theta ->
  0 < R_d P -> 0 < p_0 P -> 0 < kappa P -> kappa P <> 1 ->
  exner P theta rho = pi_expr P rho theta.
Proof.
  intros Hrho Hth HR Hp Hk Hk1. unfold exner, pi_expr.
  assert (Hq : 0 < R_d P / p_0 P) by (apply Rdiv_lt_0_compat; assumption).
  assert (Hm : 0 < rho * theta) by (apply Rmult_lt_0_compat; assumption).
  assert (Hall : 0 < rho * R_d P * theta / p_0 P).
  { apply Rdiv_lt_0_compat; [|assumption].
    repeat apply Rmult_lt_0_compat; assumption. }
  rewrite !power_pos by assumption.
  rewrite Rpower_mult_distr by assumption.
  f_equal. field. lra.
Qed.

(** C10. Recovering the density from an Exner pressure and recomputing the
    Exner pressure from that density gives the Exner pressure back:
    for positive [theta_v], [pi], [R_d], [p_0], [kappa] with [kappa <> 1],
    [pi_expr (rho_expr theta_v pi) theta_v = pi]. *)
Theorem pi_expr_rho_expr (P : parameters) (theta_v pi : R) :
  0 < theta_v -> 0 < pi ->
  0 < R_d P -> 0 < p_0 P -> 0 < kappa P -> kappa P <> 1 ->
  pi_expr P (rho_expr P theta_v pi) theta_v = pi.
Proof.
  intros Hth Hpi HR Hp Hk Hk1. unfold pi_expr, rho_expr.
  replace (p_0 P * power pi (1 / kappa P - 1) / (R_d P * theta_v)
           * R_d P * theta_v / p_0 P)
    with (power pi (1 / kappa P - 1)) by (field; lra).
  rewrite (power_pos (power pi _)) by (apply power_gt_0; assumption).
  rewrite (power_pos pi) by assumption.
  rewrite Rpower_mult.
  replace ((1 / kappa P - 1) * (kappa P / (1 - kappa P))) with 1
    by (field; lra).
  apply Rpower_1. assumption.
Qed.

(** A parameter set with unit gas constant and reference pressure and
    [kappa = 1/2], used to exercise the statements above. *)
Definition unit_parameters : parameters :=
  {| R_d := 1; p_0 := 1; kappa := 1 / 2; R_v := 1;
     cp := 1; cv := 1; c_pv := 1; c_pl := 1; c_vv := 1;
     L_v0 := 1; T_0 := 1;
     w_sat1 := 1; w_sat2 := 1; w_sat3 := 1; w_sat4 := 1 |}.

Lemma exner_eq_pi_expr_witness :
  exner unit_parameters 3 2 = pi_expr unit_parameters 2 3.
Proof.
  apply (exner_eq_pi_expr unit_parameters 2 3); simpl; lra.
Defined.

Lemma pi_expr_rho_expr_witness :
  pi_expr unit_parameters (rho_expr unit_parameters 3 2) 3 = 2.
Proof.
  apply (pi_expr_rho_expr unit_parameters 3 2); simpl; lra.
Defined.

End Thermodynamics.

(** ** Physics processes ([gusto/physics.py])

  Every process is built from [Interpolator]s and [Projector]s of
  expressions in the moisture fields, and is modelled at one node.  An
  [Interpolator] acts node by node.  A [Projector] gives the node-wise
  value where its expression lies in the space of its target: an affine
  expression of fields of that space, or any expression of uniform fields;
  the rate of [Collection] is the projection of a product, for which the
  model on whole fields is [PhysicsProperties.CollectionProjectors].  The
  statements of [apply] run in sequence on fields that are mutated in
  place, which the model keeps: each step reads the values the previous
  step left. *)

Module Physics.

(** The prognostic fields a process reads or writes, at one node. *)
Record fields : Type := {
  theta : R; water_v : R; water_c : R; rain : R; rho : R }.

Definition set_theta (v : R) (s : fields) : fields :=
  {| theta := v; water_v := water_v s; water_c := water_c s;
     rain := rain s; rho := rho s |}.
Definition set_water_v (v : R) (s : fields) : fields :=
  {| theta := theta s; water_v := v; water_c := water_c s;
     rain := rain s; rho := rho s |}.
Definition set_water_c (v : R) (s : fields) : fields :=
  {| theta := theta s; water_v := water_v s; water_c := v;
     rain := rain s; rho := rho s |}.
Definition set_rain (v : R) (s : fields) : fields :=
  {| theta := theta s; water_v := water_v s; water_c := water_c s;
     rain := v; rho := rho s |}.

(** The functions of [gusto.thermodynamics] that [Condensation] calls; the
    module is not among the sources, so the process is parametric in them. *)
Record thermodynamics : Type := {
  thermo_pi : R -> R -> R;          (* pi(parameters, rho, theta) *)
  thermo_T : R -> R -> R -> R;      (* T(parameters, theta, Pi, r_v=water_v) *)
  thermo_p : R -> R;                (* p(parameters, Pi) *)
  thermo_Lv : R -> R;               (* Lv(parameters, T) *)
  thermo_r_sat : R -> R -> R }.     (* r_sat(parameters, T, p) *)

(** The expressions of [gusto/expressions.py] compute the same quantities
    under the names [pi_expr], [T_expr], [p_expr], [Lv_expr] and
    [r_sat_expr]. *)
Definition thermodynamics_of_expressions (P : Thermodynamics.parameters)
  : thermodynamics :=
  {| thermo_pi := Thermodynamics.pi_expr P;
     thermo_T := fun theta Pi r_v => Thermodynamics.T_expr P theta Pi (Some r_v);
     thermo_p := Thermodynamics.p_expr P;
     thermo_Lv := Thermodynamics.Lv_expr P;
     thermo_r_sat := Thermodynamics.r_sat_expr P |}.

Module Condensation.
Section Condensation.
Variable P : Thermodynamics.parameters.
Variable Th : thermodynamics.
(** [state.timestepping.dt] *)
Variable dt : R.
(** [weak] and, when it is set, the nodal value the nonlinear solve
      [cond_rate_solver.solve()] leaves in [dot_r_cond]. *)
Variable weak : bool.
Variable cond_rate_solver : fields -> R.

Import Thermodynamics.

Definition L_v (s : fields) : R :=
    let Pi := thermo_pi Th (rho s) (theta s) in
    thermo_Lv Th (thermo_T Th (theta s) Pi (water_v s)).

Definition T (s : fields) : R :=
    thermo_T Th (theta s) (thermo_pi Th (rho s) (theta s)) (water_v s).

Definition w_sat (s : fields) : R :=
    let Pi := thermo_pi Th (rho s) (theta s) in
    thermo_r_sat Th (T s) (thermo_p Th Pi).

(** The expression first bound to [dot_r_cond]. *)
Definition cond_rate_expr (s : fields) : R :=
    (water_v s - w_sat s)
    / (dt * (1 + (L_v s ^ 2 * w_sat s) / (cp P * R_v P * T s ^ 2))).

Definition dot_r_cond (s : fields) : R :=
    if weak then cond_rate_solver s else cond_rate_expr s.

(** [lim_cond_rate]: the value interpolated into [cond_rate]. *)
Definition lim_cond_rate (raw : R) (s : fields) : R :=
    if Rlt_dec raw 0
    then Rmax raw (- water_c s / dt)
    else Rmin raw (water_v s / dt).

Definition theta_new (cond_rate : R) (s : fields) : R :=
    let R_m := R_d P + R_v P * water_v s in
    let c_pml := cp P + c_pv P * water_v s + c_pl P * water_c s in
    let c_vml := cv P + c_vv P * water_v s + c_pl P * water_c s in
    theta s
    * (1 + dt * cond_rate
           * (cv P * L_v s / (c_vml * cp P * T s)
              - R_v P * cv P * c_pml / (R_m * cp P * c_vml))).

Definition water_v_new (cond_rate : R) (s : fields) : R :=
    water_v s - dt * cond_rate.
Definition water_c_new (cond_rate : R) (s : fields) : R :=
    water_c s + dt * cond_rate.

(** [Condensation.apply] *)
Definition apply (s : fields) : fields :=
    let cond_rate := lim_cond_rate (dot_r_cond s) s in
    let s := set_theta (theta_new cond_rate s) s in
    let s := set_water_v (water_v_new cond_rate s) s in
    let s := set_water_c (water_c_new cond_rate s) s in
    s.
End Condensation.
End Condensation.

Module Coalescence.
Section Coalescence.
Variable dt : R.

Definition k1 : R := 0.001.
Definition k2 : R := 2.2.
Definition a : R := 0.001.

Definition collection (s : fields) : R :=
    k2 * water_c s * power (rain s) 0.875.
Definition autoconversion (s : fields) : R :=
    k1 * (water_c s - a).

(** [lim_coalescence_rate]: the value interpolated into
      [coalescence_rate]. *)
Definition lim_coalescence_rate (s : fields) : R :=
    if Rlt_dec (collection s + autoconversion s) 0
    then 0
    else Rmin (collection s + autoconversion s) (water_c s / dt).

(** [Coalescence.apply] *)
Definition apply (s : fields) : fields :=
    let coalescence_rate := lim_coalescence_rate s in
    let s := set_water_c (water_c s - dt * coalescence_rate) s in
    let s := set_rain (rain s + dt * coalescence_rate) s in
    s.
End Coalescence.
End Coalescence.

Module Collection.
Section Collection.
Variable dt : R.

Definition k2 : R := 2.2.

Definition collection (s : fields) : R :=
    k2 * water_c s * power (rain s) 0.875.

(** [limit_rate]: built by [__init__]; it would overwrite
      [collection_rate] with the clipped rate. *)
Definition limit_rate (collection_rate : R) (s : fields) : R :=
    if Rlt_dec 0 collection_rate
    then Rmin collection_rate (water_c s / dt)
    else 0.

(** [Collection.apply]: [collection_projector], [water_c_projector],
      [rain_projector]; [limit_rate] is not among the calls. *)
Definition apply (s : fields) : fields :=
    let collection_rate := collection s in
    let s := set_water_c (water_c s - dt * collection_rate) s in
    let s := set_rain (rain s + dt * collection_rate) s in
    s.
End Collection.
End Collection.

Module Autoconversion.
Section Autoconversion.
Variable dt : R.

Definition k1 : R := 0.001.
Definition a : R := 0.001.

Definition autoconversion (s : fields) : R :=
    k1 * (water_c s - a).

(** [limit_rate]: overwrites [autoconversion_rate] with the clipped
      rate. *)
Definition limit_rate (autoconversion_rate : R) (s : fields) : R :=
    if Rlt_dec 0 (dt * autoconversion_rate)
    then Rmin autoconversion_rate (water_c s / dt)
    else Rmax autoconversion_rate (- rain s / dt).

(** [Autoconversion.apply] *)
Definition apply (s : fields) : fields :=
    let autoconversion_rate := autoconversion s in
    let autoconversion_rate := limit_rate autoconversion_rate s in
    let s := set_water_c (water_c s - dt * autoconversion_rate) s in
    let s := set_rain (rain s + dt * autoconversion_rate) s in
    s.
End Autoconversion.
End Autoconversion.

(** All three moisture fields are non-negative. *)
Definition moisture_nonneg (s : fields) : Prop :=
  0 <= water_v s /\ 0 <= water_c s /\ 0 <= rain s.

(** *** Arithmetic of the clipped rates *)

(** [x / dt] as the number [q] with [dt * q = x]; the clipping arguments are
    linear once the quotient is named. *)
Lemma quotient_spec (x dt : R) : 0 < dt -> dt * (x / dt) = x.
Proof. intros Hdt. field. lra. Qed.

Ltac name_quotient x dt q :=
  let E := fresh "E" in
  pose proof (quotient_spec x dt ltac:(assumption)) as E;
  set (q := x / dt) in *; clearbody q.

Ltac split_clip :=
  repeat match goal with
         | |- context [Rlt_dec ?a ?b] => destruct (Rlt_dec a b)
         | |- context [Rmax ?a ?b] => unfold Rmax; destruct (Rle_dec a b)
         | |- context [Rmin ?a ?b] => unfold Rmin; destruct (Rle_dec a b)
         end.

Lemma opp_quotient (x dt : R) : - x / dt = - (x / dt).
Proof. unfold Rdiv. ring. Qed.

(** The clipped condensation rate stays between [- water_c / dt] and
    [water_v / dt] when both reservoirs are non-negative. *)
Lemma lim_cond_rate_bounds (dt raw : R) (s : fields) :
  0 < dt -> 0 <= water_v s -> 0 <= water_c s ->
  - water_c s <= dt * Condensation.lim_cond_rate dt raw s <= water_v s.
Proof.
  intros Hdt Hv Hc. unfold Condensation.lim_cond_rate.
  rewrite opp_quotient.
  name_quotient (water_c s) dt qc. name_quotient (water_v s) dt qv.
  split_clip; nra.
Qed.

(** Condensation keeps the moisture fields non-negative. *)
Lemma Condensation_nonneg P Th (dt : R) weak solver (s : fields) :
  0 < dt -> moisture_nonneg s ->
  moisture_nonneg (Condensation.apply P Th dt weak solver s).
Proof.
  intros Hdt (Hv & Hc & Hr). unfold Condensation.apply.
  set (raw := Condensation.dot_r_cond P Th dt weak solver s).
  pose proof (lim_cond_rate_bounds dt raw s Hdt Hv Hc) as [Hlo Hhi].
  unfold moisture_nonneg, Condensation.water_v_new, Condensation.water_c_new.
  simpl. repeat split; lra.
Qed.

(** Coalescence keeps the moisture fields non-negative. *)
Lemma Coalescence_nonneg (dt : R) (s : fields) :
  0 < dt -> moisture_nonneg s -> moisture_nonneg (Coalescence.apply dt s).
Proof.
  intros Hdt (Hv & Hc & Hr).
  assert (Hb : 0 <= dt * Coalescence.lim_coalescence_rate dt s <= water_c s).
  { unfold Coalescence.lim_coalescence_rate.
    set (raw := Coalescence.collection s + Coalescence.autoconversion s).
    clearbody raw. name_quotient (water_c s) dt qc. split_clip; nra. }
  unfold moisture_nonneg, Coalescence.apply. simpl. repeat split; lra.
Qed.

(** Autoconversion keeps the moisture fields non-negative. *)
Lemma Autoconversion_nonneg (dt : R) (s : fields) :
  0 < dt -> moisture_nonneg s -> moisture_nonneg (Autoconversion.apply dt s).
Proof.
  intros Hdt (Hv & Hc & Hr).
  assert (Hb : - rain s
               <= dt * Autoconversion.limit_rate dt (Autoconversion.autoconversion s) s
               <= water_c s).
  { unfold Autoconversion.limit_rate.
    set (raw := Autoconversion.autoconversion s). clearbody raw.
    rewrite opp_quotient.
    name_quotient (water_c s) dt qc. name_quotient (rain s) dt qr.
    split_clip; nra. }
  unfold moisture_nonneg, Autoconversion.apply. simpl. repeat split; lra.
Qed.

(** A node with one unit of cloud water and one unit of rain. *)
Definition wet_node : fields :=
  {| theta := 300; water_v := 0; water_c := 1; rain := 1; rho := 1 |}.

(** C2. Non-negativity of the moisture fields after [apply] fails for
    [Collection]: with [dt = 1], cloud water [1] and rain [1] the unclipped
    rate [2.2] is applied and cloud water becomes [-1.2], although all
    moisture fields were non-negative before the call. *)
Theorem Collection_apply_negative :
  moisture_nonneg wet_node /\
  water_c (Collection.apply 1 wet_node) = - (6 / 5) /\
  ~ moisture_nonneg (Collection.apply 1 wet_node).
Proof.
  assert (E : water_c (Collection.apply 1 wet_node) = - (6 / 5)).
  { unfold Collection.apply, Collection.collection, Collection.k2, wet_node.
    simpl. rewrite power_one. lra. }
  split; [|split].
  - unfold moisture_nonneg, wet_node. simpl. lra.
  - exact E.
  - intros (_ & Hc & _). rewrite E in Hc. lra.
Qed.

(** With the rate passed through [limit_rate] first, as [Autoconversion]
    does, the same update of [Collection] would keep the fields
    non-negative. *)
Lemma Collection_limit_rate_bounds (dt : R) (s : fields) :
  0 < dt -> 0 <= water_c s ->
  0 <= dt * Collection.limit_rate dt (Collection.collection s) s <= water_c s.
Proof.
  intros Hdt Hc. unfold Collection.limit_rate.
  set (raw := Collection.collection s). clearbody raw.
  name_quotient (water_c s) dt qc. split_clip; nra.
Qed.

(** *** The limiters case by case *)

(** A dry node holding rain only; the raw coalescence rate there is the
    autoconversion term [k1 * (0 - a) = - 1 / 1000000]. *)
Definition rain_only_node : fields :=
  {| theta := 300; water_v := 0; water_c := 0; rain := 1; rho := 1 |}.

Lemma rain_only_raw_rate :
  Coalescence.collection rain_only_node
  + Coalescence.autoconversion rain_only_node = - (1 / 1000000).
Proof.
  unfold Coalescence.collection, Coalescence.autoconversion,
    Coalescence.k1, Coalescence.k2, Coalescence.a, rain_only_node. simpl.
  rewrite power_one. lra.
Qed.

(** C3, as stated, fails for [Coalescence]: at a node with rain [1] and no
    cloud water, with [dt = 10000000], the raw rate is negative and would take
    the rain below zero within the step, yet the clipped rate is [0] and not
    [- rain / dt] (nor [max (raw, - rain / dt)]). *)
Lemma lim_coalescence_rate_not_minus_rain :
  let dt := 10000000 in
  let s := rain_only_node in
  let raw := Coalescence.collection s + Coalescence.autoconversion s in
  raw < 0 /\ rain s + dt * raw < 0 /\
  Coalescence.lim_coalescence_rate dt s = 0 /\
  Coalescence.lim_coalescence_rate dt s <> - rain s / dt /\
  Coalescence.lim_coalescence_rate dt s <> Rmax raw (- rain s / dt).
Proof.
  cbv zeta.
  assert (L : Coalescence.lim_coalescence_rate 10000000 rain_only_node = 0).
  { unfold Coalescence.lim_coalescence_rate. rewrite rain_only_raw_rate.
    destruct (Rlt_dec (- (1 / 1000000)) 0); [reflexivity | lra]. }
  rewrite L, rain_only_raw_rate.
  replace (rain rain_only_node) with 1 by reflexivity.
  repeat split; try lra.
  unfold Rmax. destruct (Rle_dec _ _); lra.
Qed.

(** C3 (amended). For [dt > 0] each limiter is a three-way conditional.
    - Condensation: a negative raw rate that would take cloud water below zero
      is clamped to [- water_c / dt], which empties it exactly; a non-negative
      raw rate that would take vapour below zero is clamped to
      [water_v / dt]; otherwise the raw rate passes through.
    - Autoconversion: a positive raw rate that would take cloud water below
      zero is clamped to [water_c / dt]; a non-positive one that would take
      rain below zero is clamped to [- rain / dt]; otherwise the raw rate
      passes through.
    - Coalescence: a negative raw rate is replaced by [0]; a non-negative
      one that would take cloud water below zero is clamped to
      [water_c / dt]; otherwise the raw rate passes through.
    - The limiter expression built by Collection: a non-positive rate is
      replaced by [0]; a positive one that would take cloud water below zero
      is clamped to [water_c / dt]; otherwise it passes through. *)
Theorem limiters_three_way (dt raw : R) (s : fields) :
  0 < dt ->
  (let lim := Condensation.lim_cond_rate dt raw s in
   (raw < 0 -> water_c s + dt * raw < 0 ->
      lim = - water_c s / dt /\ water_c s + dt * lim = 0) /\
   (0 <= raw -> water_v s - dt * raw < 0 ->
      lim = water_v s / dt /\ water_v s - dt * lim = 0) /\
   (raw < 0 -> 0 <= water_c s + dt * raw -> lim = raw) /\
   (0 <= raw -> 0 <= water_v s - dt * raw -> lim = raw)) /\
  (let lim := Autoconversion.limit_rate dt raw s in
   (0 < raw -> water_c s - dt * raw < 0 ->
      lim = water_c s / dt /\ water_c s - dt * lim = 0) /\
   (raw <= 0 -> rain s + dt * raw < 0 ->
      lim = - rain s / dt /\ rain s + dt * lim = 0) /\
   (0 < raw -> 0 <= water_c s - dt * raw -> lim = raw) /\
   (raw <= 0 -> 0 <= rain s + dt * raw -> lim = raw)) /\
  (let raw := Coalescence.collection s + Coalescence.autoconversion s in
   let lim := Coalescence.lim_coalescence_rate dt s in
   (raw < 0 -> lim = 0) /\
   (0 <= raw -> water_c s - dt * raw < 0 ->
      lim = water_c s / dt /\ water_c s - dt * lim = 0) /\
   (0 <= raw -> 0 <= water_c s - dt * raw -> lim = raw)) /\
  (let lim := Collection.limit_rate dt raw s in
   (raw <= 0 -> lim = 0) /\
   (0 < raw -> water_c s - dt * raw < 0 ->
      lim = water_c s / dt /\ water_c s - dt * lim = 0) /\
   (0 < raw -> 0 <= water_c s - dt * raw -> lim = raw)).
Proof.
  intros Hdt. cbv zeta.
  unfold Condensation.lim_cond_rate, Autoconversion.limit_rate,
    Coalescence.lim_coalescence_rate, Collection.limit_rate.
  set (raw' := Coalescence.collection s + Coalescence.autoconversion s).
  clearbody raw'.
  rewrite !opp_quotient.
  name_quotient (water_c s) dt qc. name_quotient (water_v s) dt qv.
  name_quotient (rain s) dt qr.
  repeat split; intros; split_clip; try split; nra.
Qed.

Lemma limiters_three_way_witness :
  Coalescence.lim_coalescence_rate 10000000 rain_only_node = 0.
Proof.
  assert (Hdt : 0 < 10000000) by lra.
  destruct (limiters_three_way 10000000 0 rain_only_node Hdt)
    as (_ & _ & (Hneg & _) & _).
  apply Hneg. rewrite rain_only_raw_rate. lra.
Defined.

(** C8. Each update moves water between two reservoirs and keeps their sum:
    Condensation keeps [water_v + water_c]; Coalescence, Collection and
    Autoconversion keep [water_c + rain]. *)
Theorem moisture_sum_conserved P Th weak solver (dt : R) (s : fields) :
  (let s' := Condensation.apply P Th dt weak solver s in
   water_v s' + water_c s' = water_v s + water_c s) /\
  (let s' := Coalescence.apply dt s in
   water_c s' + rain s' = water_c s + rain s) /\
  (let s' := Collection.apply dt s in
   water_c s' + rain s' = water_c s + rain s) /\
  (let s' := Autoconversion.apply dt s in
   water_c s' + rain s' = water_c s + rain s).
Proof.
  cbv zeta.
  unfold Condensation.apply, Coalescence.apply, Collection.apply,
    Autoconversion.apply, Condensation.water_v_new, Condensation.water_c_new.
  simpl. repeat split; ring.
Qed.

End Physics.

(** ** Forcing ([gusto/forcing.py])

    A mixed [Function] is a record of component coefficient vectors.  The
    calls of [apply] receive references to [Function] objects that may alias
    one another; the model keeps a heap of mixed functions addressed by
    reference and threads it, with the forcing object's own fields, through
    the statements of [apply]. *)

Module Forcing.

Definition dofs : Type := nat -> R.

Definition vzero : dofs := fun _ => 0.
Definition vadd (a b : dofs) : dofs := fun i => a i + b i.
Definition vsub (a b : dofs) : dofs := fun i => a i - b i.
Definition vscale (c : R) (a : dofs) : dofs := fun i => c * a i.

(** References to the [Function] objects handed to [apply] ([state.xn],
    [state.xstar], ...), and the heap holding their current contents. *)
Definition ref : Type := nat.
Definition heap (W : Type) : Type := ref -> W.

Definition heap_set {W : Type} (h : heap W) (r : ref) (w : W) : heap W :=
  fun r' => if decide (r' = r) then w else h r'.

(** A solver of a linear variational problem is linear in the assembled
    right-hand side, and depends on its coefficients only. *)
Definition linear (f : dofs -> dofs) : Prop :=
  forall (a b : R) (v w r : dofs),
    (forall j, r j = a * v j + b * w j) ->
    forall i, f r i = a * f v i + b * f w i.

(** The part of [state] read by [_build_forcing_solver]: whether
    [state.parameters.geopotential] is set, whether [state.Omega] and
    [state.mu] are present. *)
Record state_config : Type := {
  geopotential : bool; has_Omega : bool; has_mu : bool }.

(** [Forcing.__init__]: the value of [self.euler_poincare]. *)
Definition init_euler_poincare (euler_poincare linear : bool) : bool :=
  if linear then false else euler_poincare.

(** [if 'mu_alpha' in kwargs and kwargs['mu_alpha'] is not None:
       self.mu_scaling.assign(kwargs['mu_alpha'])].
    [self.mu_scaling] exists only if [state.mu] was present at construction;
    assigning to it otherwise raises [AttributeError], here [None]. *)
Definition assign_mu_scaling (mu_alpha : option R) (mu_scaling : option R)
  : option (option R) :=
  match mu_alpha with
  | None => Some mu_scaling
  | Some a => match mu_scaling with
              | Some _ => Some (Some a)
              | None => None
              end
  end.

(** *** Compressible Euler *)

Module Compressible.

Record W : Type := { u : dofs; rho : dofs; theta : dofs }.

Definition set_u (v : dofs) (x : W) : W :=
  {| u := v; rho := rho x; theta := theta x |}.

(** The assembled terms of the right-hand side [L], each a function of the
    linearisation state [x0], and the solve of [a = inner(w, F) * dx] with
    the two boundary conditions. *)
Record substrate : Type := {
  pressure_gradient : W -> dofs;
    (* cp*div(theta0*w)*pi*dx - cp*jump(w*theta0,n)*avg(pi)*dS_v *)
  geopotential_term : dofs;        (* div(w)*Phi*dx *)
  gravity_term : dofs;             (* g*inner(w,state.k)*dx *)
  kinetic_term : W -> dofs;        (* 0.5*div(w)*inner(u0,u0)*dx *)
  coriolis_term : W -> dofs;       (* inner(w,cross(2*Omega,u0-u_init))*dx *)
  sponge_term : W -> dofs;         (* mu*inner(w,state.k)*inner(u0,state.k)*dx *)
  solve : dofs -> dofs }.

(** The forcing object: [self.euler_poincare], [self.x0], [self.scaling],
    [self.mu_scaling] (absent without a sponge) and [self.uF]. *)
Record forcing : Type := {
  euler_poincare : bool;
  x0 : W;
  scaling : R;
  mu_scaling : option R;
  uF : dofs }.

Definition zero : W := {| u := vzero; rho := vzero; theta := vzero |}.

(** [_build_forcing_solver] *)
Definition build_forcing_solver (C : state_config) (euler_poincare : bool)
  : forcing :=
  {| euler_poincare := euler_poincare;
     x0 := zero;
     scaling := 1;
     mu_scaling := if has_mu C then Some 1 else None;
     uF := vzero |}.

(** The right-hand side [L] at the current values of [x0], [scaling] and
    [mu_scaling]; a [Constant] factor of a form scales its assembled
    vector. *)
Definition L (S : substrate) (C : state_config) (ep : bool)
    (x0 : W) (scaling : R) (mu_scaling : option R) : dofs :=
  let L := vscale scaling (pressure_gradient S x0) in
  let L := if geopotential C
           then vadd L (vscale scaling (geopotential_term S))
           else vsub L (vscale scaling (gravity_term S)) in
  let L := if ep then vsub L (vscale scaling (kinetic_term S x0)) else L in
  let L := if has_Omega C
           then vsub L (vscale scaling (coriolis_term S x0)) else L in
  let L := match mu_scaling with
           | Some m => vsub L (vscale m (sponge_term S x0))
           | None => L
           end in
  L.

(** [CompressibleForcing.apply(scaling, x_in, x_nl, x_out, mu_alpha=...)] *)
Definition apply (S : substrate) (C : state_config)
    (scaling' : R) (x_in x_nl x_out : ref) (mu_alpha : option R)
    (F : forcing) (h : heap W) : option (forcing * heap W) :=
  let x0' := h x_nl in
  match assign_mu_scaling mu_alpha (mu_scaling F) with
  | None => None
  | Some mu' =>
      let uF' := solve S (L S C (euler_poincare F) x0' scaling' mu') in
      let h := heap_set h x_out (h x_in) in
      let h := heap_set h x_out (set_u (vadd (u (h x_out)) uF') (h x_out)) in
      Some ({| euler_poincare := euler_poincare F; x0 := x0';
               scaling := scaling'; mu_scaling := mu'; uF := uF' |}, h)
  end.

(** The forcing [F(x)] without the sponge, at unit scaling, and the sponge
    increment. *)
Definition forcing_term (S : substrate) (C : state_config) (ep : bool)
    (x : W) : dofs :=
  solve S (L S C ep x 1 None).

Definition sponge_increment (S : substrate) (x : W) : dofs :=
  solve S (sponge_term S x).

End Compressible.

(** *** Incompressible Boussinesq *)

Module Incompressible.

Record W : Type := { u : dofs; p : dofs; b : dofs }.

Definition set_u (v : dofs) (x : W) : W :=
  {| u := v; p := p x; b := b x |}.
Definition set_p (v : dofs) (x : W) : W :=
  {| u := u x; p := v; b := b x |}.

Record substrate : Type := {
  pressure_gradient : W -> dofs;   (* div(w)*p0*dx *)
  gravity_term : W -> dofs;        (* b0*inner(w,state.k)*dx *)
  kinetic_term : W -> dofs;        (* 0.5*div(w)*inner(u0,u0)*dx *)
  coriolis_term : W -> dofs;       (* inner(w,cross(2*Omega,u0))*dx *)
  sponge_term : W -> dofs;         (* mu*inner(w,state.k)*inner(u0,state.k)*dx *)
  solve : dofs -> dofs;            (* u_forcing_solver *)
  divergence : W -> dofs }.        (* divergence_solver: p*q*dx = q*div(u0)*dx *)

Record forcing : Type := {
  euler_poincare : bool;
  x0 : W;
  scaling : R;
  mu_scaling : option R;
  uF : dofs;
  divu : dofs }.

Definition zero : W := {| u := vzero; p := vzero; b := vzero |}.

(** [_build_forcing_solver] *)
Definition build_forcing_solver (C : state_config) (euler_poincare : bool)
  : forcing :=
  {| euler_poincare := euler_poincare;
     x0 := zero;
     scaling := 1;
     mu_scaling := if has_mu C then Some 1 else None;
     uF := vzero;
     divu := vzero |}.

Definition L (S : substrate) (C : state_config) (ep : bool)
    (x0 : W) (scaling : R) (mu_scaling : option R) : dofs :=
  let L := vadd (vscale scaling (pressure_gradient S x0))
                (vscale scaling (gravity_term S x0)) in
  let L := if ep then vsub L (vscale scaling (kinetic_term S x0)) else L in
  let L := if has_Omega C
           then vsub L (vscale scaling (coriolis_term S x0)) else L in
  let L := match mu_scaling with
           | Some m => vsub L (vscale m (sponge_term S x0))
           | None => L
           end in
  L.

(** [IncompressibleForcing.apply(scaling, x_in, x_nl, x_out, mu_alpha=...,
    incompressible=...)]; [incompressible] is [true] when the keyword is
    passed and truthy. *)
Definition apply (S : substrate) (C : state_config)
    (scaling' : R) (x_in x_nl x_out : ref) (mu_alpha : option R)
    (incompressible : bool)
    (F : forcing) (h : heap W) : option (forcing * heap W) :=
  let x0' := h x_nl in
  match assign_mu_scaling mu_alpha (mu_scaling F) with
  | None => None
  | Some mu' =>
      let uF' := solve S (L S C (euler_poincare F) x0' scaling' mu') in
      let h := heap_set h x_out (h x_in) in
      let h := heap_set h x_out (set_u (vadd (u (h x_out)) uF') (h x_out)) in
      if incompressible then
        let divu' := divergence S x0' in
        let h := heap_set h x_out (set_p divu' (h x_out)) in
        Some ({| euler_poincare := euler_poincare F; x0 := x0';
                 scaling := scaling'; mu_scaling := mu'; uF := uF';
                 divu := divu' |}, h)
      else
        Some ({| euler_poincare := euler_poincare F; x0 := x0';
                 scaling := scaling'; mu_scaling := mu'; uF := uF';
                 divu := divu F |}, h)
  end.

Definition forcing_term (S : substrate) (C : state_config) (ep : bool)
    (x : W) : dofs :=
  solve S (L S C ep x 1 None).

Definition sponge_increment (S : substrate) (x : W) : dofs :=
  solve S (sponge_term S x).

End Incompressible.

(** *** Shallow water *)

Module ShallowWater.

Record W : Type := { u : dofs; D : dofs }.

Definition set_u (v : dofs) (x : W) : W := {| u := v; D := D x |}.

Record substrate : Type := {
  coriolis_depth_term : W -> dofs;
    (* (-f*inner(w,perp(u0)) + g*div(w)*D0)*dx
       - g*inner(jump(w,n), un('+')*D0('+') - un('-')*D0('-'))*dS *)
  kinetic_term : W -> dofs;        (* 0.5*div(w)*inner(u0,u0)*dx *)
  solve : dofs -> dofs }.

Record forcing : Type := {
  euler_poincare : bool;
  x0 : W;
  uF : dofs }.

Definition zero : W := {| u := vzero; D := vzero |}.

(** [_build_forcing_solver] *)
Definition build_forcing_solver (euler_poincare : bool) : forcing :=
  {| euler_poincare := euler_poincare; x0 := zero; uF := vzero |}.

Definition L (S : substrate) (ep : bool) (x0 : W) : dofs :=
  let L := coriolis_depth_term S x0 in
  let L := if ep then vsub L (kinetic_term S x0) else L in
  L.

(** [ShallowWaterForcing.apply(scaling, x_in, x_nl, x_out)]: the solve is
    followed by [self.uF *= scaling]. *)
Definition apply (S : substrate)
    (scaling : R) (x_in x_nl x_out : ref)
    (F : forcing) (h : heap W) : forcing * heap W :=
  let x0' := h x_nl in
  let uF' := solve S (L S (euler_poincare F) x0') in
  let uF' := vscale scaling uF' in
  let h := heap_set h x_out (h x_in) in
  let h := heap_set h x_out (set_u (vadd (u (h x_out)) uF') (h x_out)) in
  ({| euler_poincare := euler_poincare F; x0 := x0'; uF := uF' |}, h).

Definition forcing_term (S : substrate) (ep : bool) (x : W) : dofs :=
  solve S (L S ep x).

End ShallowWater.

(** The factor in front of the sponge term: [mu_scaling] when a sponge is
    configured, and no term otherwise. *)
Definition sponge_scale (mu_scaling : option R) : R :=
  match mu_scaling with Some m => m | None => 0 end.

(** [mu_alpha] may be passed only to a forcing object built with a sponge. *)
Definition mu_alpha_ok (mu_alpha mu_scaling : option R) : Prop :=
  mu_alpha = None \/ mu_scaling <> None.

(** *** A mesh with one velocity node and unit mass matrix

    Concrete substrates on which the statements below are exercised: the
    solve is the identity, the sponge term is the velocity coefficient at
    the linearisation state. *)

Definition one_node_compressible : Compressible.substrate :=
  {| Compressible.pressure_gradient := fun x => Compressible.theta x;
     Compressible.geopotential_term := vzero;
     Compressible.gravity_term := fun _ => 1;
     Compressible.kinetic_term := fun _ => vzero;
     Compressible.coriolis_term := fun _ => vzero;
     Compressible.sponge_term := fun x => Compressible.u x;
     Compressible.solve := fun v => v |}.

Definition one_node_incompressible : Incompressible.substrate :=
  {| Incompressible.pressure_gradient := fun x => Incompressible.p x;
     Incompressible.gravity_term := fun x => Incompressible.b x;
     Incompressible.kinetic_term := fun _ => vzero;
     Incompressible.coriolis_term := fun _ => vzero;
     Incompressible.sponge_term := fun x => Incompressible.u x;
     Incompressible.solve := fun v => v;
     Incompressible.divergence := fun x => Incompressible.u x |}.

Definition one_node_shallow_water : ShallowWater.substrate :=
  {| ShallowWater.coriolis_depth_term := fun x => ShallowWater.D x;
     ShallowWater.kinetic_term := fun _ => vzero;
     ShallowWater.solve := fun v => v |}.

(** A state with a sponge layer, no rotation, gravity by [g]. *)
Definition sponge_config : state_config :=
  {| geopotential := false; has_Omega := false; has_mu := true |}.

(** Every buffer holds unit velocity and zero density and temperature. *)
Definition unit_velocity_heap : heap Compressible.W :=
  fun _ => {| Compressible.u := fun _ => 1;
              Compressible.rho := vzero; Compressible.theta := vzero |}.

Definition unit_heap_incompressible : heap Incompressible.W :=
  fun _ => {| Incompressible.u := fun _ => 1;
              Incompressible.p := vzero; Incompressible.b := vzero |}.

Definition unit_heap_shallow_water : heap ShallowWater.W :=
  fun _ => {| ShallowWater.u := fun _ => 1; ShallowWater.D := fun _ => 1 |}.

(** *** Heap and solver lemmas *)

Lemma heap_set_eq {W : Type} (h : heap W) (r : ref) (w : W) :
  heap_set h r w r = w.
Proof. unfold heap_set. destruct (decide (r = r)); [reflexivity | contradiction]. Qed.

Lemma heap_set_ne {W : Type} (h : heap W) (r r' : ref) (w : W) :
  r' <> r -> heap_set h r w r' = h r'.
Proof. intros N. unfold heap_set. destruct (decide (r' = r)); [contradiction | reflexivity]. Qed.

Lemma linear_id : linear (fun v => v).
Proof. intros a b v w r H i. apply H. Qed.

(** [L] is the unit-scaling right-hand side without sponge, times
    [scaling], minus [mu_scaling] times the sponge term. *)
Lemma compressible_L_split S C ep x s mu (j : nat) :
  Compressible.L S C ep x s mu j
  = s * Compressible.L S C ep x 1 None j
    + - sponge_scale mu * Compressible.sponge_term S x j.
Proof.
  unfold Compressible.L, sponge_scale, vadd, vsub, vscale.
  destruct (geopotential C), ep, (has_Omega C), mu; ring.
Qed.

Lemma incompressible_L_split S C ep x s mu (j : nat) :
  Incompressible.L S C ep x s mu j
  = s * Incompressible.L S C ep x 1 None j
    + - sponge_scale mu * Incompressible.sponge_term S x j.
Proof.
  unfold Incompressible.L, sponge_scale, vadd, vsub, vscale.
  destruct ep, (has_Omega C), mu; ring.
Qed.

Lemma compressible_solve_L S C ep x s mu (i : nat) :
  linear (Compressible.solve S) ->
  Compressible.solve S (Compressible.L S C ep x s mu) i
  = s * Compressible.forcing_term S C ep x i
    - sponge_scale mu * Compressible.sponge_increment S x i.
Proof.
  intros Hlin. unfold Compressible.forcing_term, Compressible.sponge_increment.
  rewrite (Hlin s (- sponge_scale mu) (Compressible.L S C ep x 1 None)
             (Compressible.sponge_term S x)).
  - ring.
  - intros j. apply compressible_L_split.
Qed.

Lemma incompressible_solve_L S C ep x s mu (i : nat) :
  linear (Incompressible.solve S) ->
  Incompressible.solve S (Incompressible.L S C ep x s mu) i
  = s * Incompressible.forcing_term S C ep x i
    - sponge_scale mu * Incompressible.sponge_increment S x i.
Proof.
  intros Hlin. unfold Incompressible.forcing_term, Incompressible.sponge_increment.
  rewrite (Hlin s (- sponge_scale mu) (Incompressible.L S C ep x 1 None)
             (Incompressible.sponge_term S x)).
  - ring.
  - intros j. apply incompressible_L_split.
Qed.

Lemma assign_mu_scaling_ok (mu_alpha mu_scaling : option R) :
  mu_alpha_ok mu_alpha mu_scaling ->
  assign_mu_scaling mu_alpha mu_scaling
  = Some (match mu_alpha with Some a => Some a | None => mu_scaling end).
Proof.
  intros [-> | N]; [reflexivity|].
  destruct mu_alpha, mu_scaling; try reflexivity. contradiction.
Qed.

Ltac heap_simpl :=
  repeat first [ rewrite heap_set_eq
               | rewrite heap_set_ne by assumption
               | progress simpl ].

Ltac heap_frame :=
  heap_simpl; repeat split; try reflexivity;
  let r := fresh "r" in let Nr := fresh "Nr" in
  intros r Nr; heap_simpl; reflexivity.

(** *** What [apply] writes *)

(** C1, as stated, fails with a sponge layer: on the one-node mesh, a
    compressible forcing object built with a sponge and called with
    [scaling = 0] and no [mu_alpha] still moves the velocity, because the
    sponge term carries its own factor [mu_scaling = 1]; no [F] makes the
    result [x_in + 0 * F]. *)
Lemma apply_zero_scaling_moves_velocity :
  match Compressible.apply one_node_compressible sponge_config
          0 0%nat 0%nat 1%nat None
          (Compressible.build_forcing_solver sponge_config true)
          unit_velocity_heap with
  | Some (_, h') =>
      Compressible.u (h' 1%nat) 0%nat = 0 /\
      forall Fx : R,
        Compressible.u (h' 1%nat) 0%nat
        <> Compressible.u (unit_velocity_heap 0%nat) 0%nat + 0 * Fx
  | None => False
  end.
Proof.
  simpl. unfold vadd, vsub, vscale, vzero.
  split; [ring | intros Fx; lra].
Qed.

(** C1 (amended). For every forcing variant and every call of [apply] that
    does not pass [mu_alpha] to an object built without a sponge, the call
    returns, and the velocity of [x_out] afterwards is the velocity of [x_in]
    before the call plus [scaling] times the forcing [F(x_nl)] without the
    sponge, minus [mu_scaling] times the sponge increment at [x_nl], where
    [mu_scaling] is [mu_alpha] when passed and otherwise the value left by
    the last call (initially 1); without a sponge, and always for shallow
    water, this is [x_in + scaling * F(x_nl)].  Neither factor multiplies
    [x_in]. *)
Theorem apply_increment :
  (forall S C (scaling : R) (x_in x_nl x_out : ref) (mu_alpha : option R)
          (F : Compressible.forcing) (h : heap Compressible.W),
      linear (Compressible.solve S) ->
      mu_alpha_ok mu_alpha (Compressible.mu_scaling F) ->
      exists F' h',
        Compressible.apply S C scaling x_in x_nl x_out mu_alpha F h
        = Some (F', h') /\
        Compressible.mu_scaling F'
        = match mu_alpha with
          | Some a => Some a
          | None => Compressible.mu_scaling F
          end /\
        forall i : nat,
          Compressible.u (h' x_out) i
          = Compressible.u (h x_in) i
            + scaling * Compressible.forcing_term S C
                          (Compressible.euler_poincare F) (h x_nl) i
            - sponge_scale (Compressible.mu_scaling F')
              * Compressible.sponge_increment S (h x_nl) i) /\
  (forall S C (scaling : R) (x_in x_nl x_out : ref) (mu_alpha : option R)
          (incompressible : bool)
          (F : Incompressible.forcing) (h : heap Incompressible.W),
      linear (Incompressible.solve S) ->
      mu_alpha_ok mu_alpha (Incompressible.mu_scaling F) ->
      exists F' h',
        Incompressible.apply S C scaling x_in x_nl x_out mu_alpha
          incompressible F h = Some (F', h') /\
        Incompressible.mu_scaling F'
        = match mu_alpha with
          | Some a => Some a
          | None => Incompressible.mu_scaling F
          end /\
        forall i : nat,
          Incompressible.u (h' x_out) i
          = Incompressible.u (h x_in) i
            + scaling * Incompressible.forcing_term S C
                          (Incompressible.euler_poincare F) (h x_nl) i
            - sponge_scale (Incompressible.mu_scaling F')
              * Incompressible.sponge_increment S (h x_nl) i) /\
  (forall S (scaling : R) (x_in x_nl x_out : ref)
          (F : ShallowWater.forcing) (h : heap ShallowWater.W),
      let h' := snd (ShallowWater.apply S scaling x_in x_nl x_out F h) in
      forall i : nat,
        ShallowWater.u (h' x_out) i
        = ShallowWater.u (h x_in) i
          + scaling * ShallowWater.forcing_term S
                        (ShallowWater.euler_poincare F) (h x_nl) i).
Proof.
  split; [|split].
  - intros S C scaling x_in x_nl x_out mu_alpha F h Hlin Hok.
    unfold Compressible.apply. rewrite (assign_mu_scaling_ok _ _ Hok).
    eexists _, _. split; [reflexivity|]. split; [reflexivity|].
    intros i. rewrite !heap_set_eq. simpl. unfold vadd.
    rewrite compressible_solve_L by assumption. ring.
  - intros S C scaling x_in x_nl x_out mu_alpha incompressible F h Hlin Hok.
    unfold Incompressible.apply. rewrite (assign_mu_scaling_ok _ _ Hok).
    destruct incompressible.
    + eexists _, _. split; [reflexivity|]. split; [reflexivity|].
      intros i. rewrite !heap_set_eq. simpl. unfold vadd.
      rewrite incompressible_solve_L by assumption. ring.
    + eexists _, _. split; [reflexivity|]. split; [reflexivity|].
      intros i. rewrite !heap_set_eq. simpl. unfold vadd.
      rewrite incompressible_solve_L by assumption. ring.
  - intros S scaling x_in x_nl x_out F h h' i. subst h'.
    unfold ShallowWater.apply. simpl. rewrite !heap_set_eq. simpl.
    unfold vadd, vscale, ShallowWater.forcing_term. ring.
Qed.

Lemma apply_increment_witness :
  exists F' h',
    Compressible.apply one_node_compressible sponge_config
      2 0%nat 0%nat 1%nat (Some 3)
      (Compressible.build_forcing_solver sponge_config true)
      unit_velocity_heap = Some (F', h') /\
    Compressible.mu_scaling F' = Some 3 /\
    forall i : nat,
      Compressible.u (h' 1%nat) i
      = Compressible.u (unit_velocity_heap 0%nat) i
        + 2 * Compressible.forcing_term one_node_compressible sponge_config
                true (unit_velocity_heap 0%nat) i
        - sponge_scale (Compressible.mu_scaling F')
          * Compressible.sponge_increment one_node_compressible
              (unit_velocity_heap 0%nat) i.
Proof.
  destruct apply_increment as (HC & _ & _).
  apply (HC one_node_compressible sponge_config 2 0%nat 0%nat 1%nat (Some 3)
           (Compressible.build_forcing_solver sponge_config true)
           unit_velocity_heap).
  - exact linear_id.
  - right. simpl. discriminate.
Defined.

(** C4. After [apply], every component of [x_out] other than the velocity
    (and, for the incompressible variant called with the incompressibility
    correction, the pressure, which receives the divergence solve) equals
    the corresponding component of [x_in], as it was before the call and as
    it is after it; no other buffer changes. *)
Theorem apply_frame :
  (forall S C (scaling : R) (x_in x_nl x_out : ref) (mu_alpha : option R)
          (F F' : Compressible.forcing) (h h' : heap Compressible.W),
      Compressible.apply S C scaling x_in x_nl x_out mu_alpha F h
      = Some (F', h') ->
      Compressible.rho (h' x_out) = Compressible.rho (h x_in) /\
      Compressible.theta (h' x_out) = Compressible.theta (h x_in) /\
      Compressible.rho (h' x_out) = Compressible.rho (h' x_in) /\
      Compressible.theta (h' x_out) = Compressible.theta (h' x_in) /\
      forall r : ref, r <> x_out -> h' r = h r) /\
  (forall S C (scaling : R) (x_in x_nl x_out : ref) (mu_alpha : option R)
          (incompressible : bool)
          (F F' : Incompressible.forcing) (h h' : heap Incompressible.W),
      Incompressible.apply S C scaling x_in x_nl x_out mu_alpha
        incompressible F h = Some (F', h') ->
      Incompressible.b (h' x_out) = Incompressible.b (h x_in) /\
      Incompressible.b (h' x_out) = Incompressible.b (h' x_in) /\
      (if incompressible
       then Incompressible.p (h' x_out) = Incompressible.divergence S (h x_nl)
       else Incompressible.p (h' x_out) = Incompressible.p (h x_in) /\
            Incompressible.p (h' x_out) = Incompressible.p (h' x_in)) /\
      forall r : ref, r <> x_out -> h' r = h r) /\
  (forall S (scaling : R) (x_in x_nl x_out : ref)
          (F : ShallowWater.forcing) (h : heap ShallowWater.W),
      let h' := snd (ShallowWater.apply S scaling x_in x_nl x_out F h) in
      ShallowWater.D (h' x_out) = ShallowWater.D (h x_in) /\
      ShallowWater.D (h' x_out) = ShallowWater.D (h' x_in) /\
      forall r : ref, r <> x_out -> h' r = h r).
Proof.
  split; [|split].
  - intros S C scaling x_in x_nl x_out mu_alpha F F' h h' H.
    unfold Compressible.apply in H.
    destruct (assign_mu_scaling mu_alpha (Compressible.mu_scaling F));
      [|discriminate].
    injection H as _ <-.
    destruct (decide (x_in = x_out)) as [->|N]; heap_frame.
  - intros S C scaling x_in x_nl x_out mu_alpha incompressible F F' h h' H.
    unfold Incompressible.apply in H.
    destruct (assign_mu_scaling mu_alpha (Incompressible.mu_scaling F));
      [|discriminate].
    destruct incompressible; injection H as _ <-;
      destruct (decide (x_in = x_out)) as [->|N]; heap_frame.
  - intros S scaling x_in x_nl x_out F h h'. subst h'.
    unfold ShallowWater.apply.
    destruct (decide (x_in = x_out)) as [->|N]; heap_frame.
Qed.

Lemma apply_frame_witness :
  exists F' h',
    Incompressible.apply one_node_incompressible sponge_config
      2 0%nat 0%nat 1%nat (Some 3) true
      (Incompressible.build_forcing_solver sponge_config true)
      unit_heap_incompressible = Some (F', h') /\
    Incompressible.b (h' 1%nat)
    = Incompressible.b (unit_heap_incompressible 0%nat) /\
    Incompressible.p (h' 1%nat)
    = Incompressible.divergence one_node_incompressible
        (unit_heap_incompressible 0%nat).
Proof.
  eexists _, _. split; [reflexivity|].
  destruct apply_frame as (_ & HI & _).
  destruct (HI one_node_incompressible sponge_config 2 0%nat 0%nat 1%nat
              (Some 3) true
              (Incompressible.build_forcing_solver sponge_config true) _
              unit_heap_incompressible _ eq_refl)
    as (Hb & _ & Hp & _).
  split; [exact Hb | exact Hp].
Defined.

End Forcing.

(** ** Exceptions

    A call that can raise returns a [result]; [x ← m; k] runs [k] on the
    value of [m] and propagates what [m] raised. *)

Inductive exn : Type :=
  | NotImplementedError
  | RuntimeError
  | IOError
  | ZeroDivisionError
  | AttributeError
  | KeyError
  | TypeError.

Inductive result (A : Type) : Type :=
  | Ok (a : A)
  | Raise (e : exn).

Arguments Ok {A} a.
Arguments Raise {A} e.

#[global] Instance result_bind : MBind result :=
  fun A B f m => match m with Ok a => f a | Raise e => Raise e end.

(** ** The vector-invariant advection form
    ([gusto/transport_equation.py]) *)

Module TransportEquation.

Inductive IntegrateByParts : Type := NEVER | ONCE | TWICE.

(** [IntegrateByParts.X.value] *)
Definition value (ibp : IntegrateByParts) : Z :=
  match ibp with NEVER => 0 | ONCE => 1 | TWICE => 2 end.

Definition is_once (ibp : IntegrateByParts) : bool :=
  match ibp with ONCE => true | _ => false end.

(** The expression bound to [L] before the kinetic-energy term is
    subtracted; the integrands stay in the substrate. *)
Inductive vector_invariant_L : Type :=
  | L_3d
      (* inner(q, curl(cross(ubar, test)))*dx
         - inner(both(Upwind*q), both(cross(n, cross(ubar, test))))*dS *)
  | L_2d_once (on_sphere : bool)
      (* -inner(gradperp(inner(test, perp(ubar))), q)*dx
         - inner(jump(inner(test, perp(ubar)), n), perp_u_upwind(q))*dS *)
  | L_2d_other (on_sphere : bool).
      (* (-inner(test, div(perp(q))*perp(ubar)))*dx
         - inner(jump(inner(test, perp(ubar)), n), perp_u_upwind(q))*dS
         + jump(inner(test, perp(ubar))*perp(q), n)*dS *)

(** [integrand * dS], where [dS, ds = surface_measures(q.function_space())]:
    on a continuous space ([is_cg]) [dS] is [None], and multiplying a UFL
    expression by [None] raises [TypeError]. *)
Definition times_dS {A : Type} (is_cg : bool) (L : A) : result A :=
  if is_cg then Raise TypeError else Ok L.

(** [vector_invariant_form(state, V, idx, ibp=...)], as a function of
    [state.mesh.topological_dimension()], [is_cg(q.function_space())],
    [state.on_sphere] and [ibp].  Every branch that builds [L] integrates
    over [dS]. *)
Definition vector_invariant_form (topological_dimension : Z)
    (is_cg on_sphere : bool) (ibp : IntegrateByParts)
  : result vector_invariant_L :=
  if (topological_dimension =? 3)%Z then
    if negb (is_once ibp) then Raise NotImplementedError
    else times_dS is_cg L_3d
  else
    if is_once ibp then times_dS is_cg (L_2d_once on_sphere)
    else times_dS is_cg (L_2d_other on_sphere).

(** [advection_equation_circulation_form]: the vector-invariant form minus
    the kinetic-energy form. *)
Definition advection_equation_circulation_form (topological_dimension : Z)
    (is_cg on_sphere : bool) (ibp : IntegrateByParts)
  : result vector_invariant_L :=
  form ← vector_invariant_form topological_dimension is_cg on_sphere ibp;
  Ok form.

End TransportEquation.

(** ** Fallout ([gusto/physics.py]) *)

Module Fallout.

Import Forcing.

(** The expression projected into [rainfall_velocity]. *)
Inductive v_expression : Type :=
  | terminal_velocity (v : R)   (* Constant(terminal_velocity) *)
  | first_moment.               (* conditional(rain > mass_threshold, ...) *)

Record Fallout : Type := { v_expr : v_expression }.

(** [Fallout.__init__(state, moments=0)] *)
Definition init (moments : Z) : result Fallout :=
  if (moments =? 0)%Z then Ok {| v_expr := terminal_velocity 10 |}
  else if (moments =? 1)%Z then Ok {| v_expr := first_moment |}
  else Raise NotImplementedError.

(** The projection of the velocity expression and the limited SSPRK3
    advection of [rain], both outside the sources. *)
Record substrate : Type := {
  determine_v : v_expression -> dofs -> dofs -> dofs;  (* expr, rain, rho *)
  advection_method : dofs -> dofs -> dofs }.           (* ubar, field *)

(** [Fallout.apply] *)
Definition apply (S : substrate) (F : Fallout) (rain rho : dofs) : dofs :=
  let v := determine_v S (v_expr F) rain rho in
  advection_method S v rain.

End Fallout.

(** ** State: fields, output and checkpoints ([gusto/state.py]) *)

Module State.

Import Forcing.

(** A [Function] held by the state: its name, its coefficients, the shape of
    its values and the two flags [FieldCreator] attaches. *)
Record field : Type := {
  name : string;
  data : dofs;
  ufl_shape : list nat;
  dump_flag : bool;       (* func.dump *)
  pickup_flag : bool }.   (* func.pickup *)

Definition set_data (v : dofs) (f : field) : field :=
  {| name := name f; data := v; ufl_shape := ufl_shape f;
     dump_flag := dump_flag f; pickup_flag := pickup_flag f |}.

(** The attributes of the output-parameters object read here. *)
Record OutputParameters : Type := {
  dirname : string;
  dumpfreq : Z;
  dumplist : option (list string);
  dumplist_latlon : list string }.

Definition set_dumplist (l : list string) (o : OutputParameters)
  : OutputParameters :=
  {| dirname := dirname o; dumpfreq := dumpfreq o; dumplist := Some l;
     dumplist_latlon := dumplist_latlon o |}.

(** [FieldCreator]: the attribute table from names to [Function] objects
    and the list [self.fields]; an object is identified by its position in
    the list, so every holder of a reference sees its mutation. *)
Record FieldCreator : Type := {
  attrs : gmap string nat;
  fields : list field }.

(** [FieldCreator.__init__(fieldlist, xn, dumplist)]: one field per pair of
    [zip(fieldlist, xn.split())], with [pickup=True].  The names are those
    of fields: a name the object has as an attribute of its own ([fields],
    or a special name [__x__]) is not in the table. *)
Fixpoint FieldCreator_init (pairs : list (string * (list nat * dofs)))
    (dumplist : list string) (fc : FieldCreator) : FieldCreator :=
  match pairs with
  | [] => fc
  | (n, (shape, func)) :: rest =>
      FieldCreator_init rest dumplist
        {| attrs := <[n := length (fields fc)]> (attrs fc);
           fields := fields fc ++
                     [{| name := n; data := func; ufl_shape := shape;
                         dump_flag := bool_decide (n ∈ dumplist);
                         pickup_flag := true |}] |}
  end.

(** [FieldCreator.__call__(name, space, dump, pickup)]: the existing object
    of that name, or a new one on [space]; [Function(None)] is refused.
    As in [__init__], [name] is the name of a field, not an attribute the
    object has of its own, which [getattr] would return instead. *)
Definition FieldCreator_call (n : string) (space : option (list nat))
    (dump pickup : bool) (fc : FieldCreator) : result (nat * FieldCreator) :=
  match attrs fc !! n with
  | Some i => Ok (i, fc)
  | None =>
      match space with
      | None => Raise AttributeError
      | Some shape =>
          Ok (length (fields fc),
              {| attrs := <[n := length (fields fc)]> (attrs fc);
                 fields := fields fc ++
                           [{| name := n; data := vzero; ufl_shape := shape;
                               dump_flag := dump; pickup_flag := pickup |}] |})
      end
  end.

(** What [State.__init__] leaves in the object. *)
Record State : Type := {
  fieldlist : list string;
  output : OutputParameters;
  diagnostics : list string;        (* self.diagnostics.fields *)
  diagnostic_fields : list nat;     (* the Function each diagnostic writes *)
  field_creator : FieldCreator }.   (* self.fields *)

Definition set_fields (fs : list field) (s : State) : State :=
  {| fieldlist := fieldlist s; output := output s;
     diagnostics := diagnostics s; diagnostic_fields := diagnostic_fields s;
     field_creator := {| attrs := attrs (field_creator s); fields := fs |} |}.

(** [_build_spaces] and [_allocate_state]: the value shapes of the
    components of [W], each paired with a zero [Function] of [xn]. *)
Definition xn_split (mesh_dim : nat) (vertical_degree : option Z)
  : list (list nat * dofs) :=
  match vertical_degree with
  | Some _ => [([mesh_dim], vzero); ([], vzero); ([], vzero)]
  | None => [([mesh_dim], vzero); ([], vzero)]
  end.

(** [State.__init__(mesh, fieldlist, vertical_degree, horizontal_degree,
    family, output=None, diagnostics=None, diagnostic_fields=None)] *)
Definition init (mesh_dim : nat) (fieldlist : list string)
    (vertical_degree : option Z) (output : option OutputParameters)
    (diagnostics : option (list string))
    (diagnostic_fields : option (list nat)) : result State :=
  match output with
  | None => Raise RuntimeError
  | Some output =>
      let diagnostics := default fieldlist diagnostics in
      let diagnostic_fields := default [] diagnostic_fields in
      let xn := xn_split mesh_dim vertical_degree in
      let output := match dumplist output with
                    | None => set_dumplist fieldlist output
                    | Some _ => output
                    end in
      let fc := FieldCreator_init (zip fieldlist xn)
                  (default [] (dumplist output))
                  {| attrs := ∅; fields := [] |} in
      Ok {| fieldlist := fieldlist; output := output;
            diagnostics := diagnostics;
            diagnostic_fields := diagnostic_fields;
            field_creator := fc |}
  end.

(** *** The results directory *)

(** A checkpoint file: its datasets by name and the attribute ["time"]. *)
Record checkpoint : Type := {
  datasets : gmap string dofs;
  time : R }.

Record disk : Type := {
  dumpdir_exists : bool;
  field_output : list (list (string * dofs));          (* field_output.pvd *)
  field_output_latlon : list (list (string * dofs));   (* ..._latlon.pvd *)
  chkptbk : option checkpoint;
  chkpt : option checkpoint;
  diagnostics_json : option (gmap string (gmap string (list R))) }.

(** The attributes [setup_dump] creates; [dump] needs them, so it cannot be
    called on a state that was not set up. *)
Record dump_attrs : Type := {
  dumpcount : nat;                  (* the next value of itertools.count() *)
  to_dump : list nat;
  to_pickup : list nat;
  to_dump_latlon : list nat;
  diagnostic_data : gmap string (gmap string (list R)) }.

(** ["pytest" in dirname] *)
Fixpoint contains (needle hay : string) : bool :=
  match hay with
  | EmptyString => String.prefix needle hay
  | String _ hay' => String.prefix needle hay || contains needle hay'
  end.

(** [[field for field in self.fields if P(field)]], as references. *)
Fixpoint select (P : field -> bool) (fs : list field) (i : nat) : list nat :=
  match fs with
  | [] => []
  | f :: fs' => if P f then i :: select P fs' (S i) else select P fs' (S i)
  end.

(** [self.fields(name)] for each name of [dumplist_latlon]. *)
Fixpoint lookup_all (names : list string) (fc : FieldCreator)
  : result (list nat) :=
  match names with
  | [] => Ok []
  | n :: rest =>
      '(i, _) ← FieldCreator_call n None true true fc;
      ll ← lookup_all rest fc;
      Ok (i :: ll)
  end.

(** [State.setup_dump(pickup=False)]; [rank] is [self.mesh.comm.rank].
    [File(outfile, ...)] opens a new output collection, replacing one of
    the same name (the directory check is there "so as not to overwrite
    output files"); [dumpfile_ll] is opened only when [dumplist_latlon] is
    not empty. *)
Definition setup_dump (rank : nat) (pickup : bool) (s : State) (d : disk)
  : result (dump_attrs * disk) :=
  if (rank =? 0)%nat && negb (contains "pytest" (dirname (output s)))
     && dumpdir_exists d && negb pickup
  then Raise IOError
  else
    ll ← lookup_all (dumplist_latlon (output s)) (field_creator s);
    Ok ({| dumpcount := 0;
           to_dump := select dump_flag (fields (field_creator s)) 0;
           to_pickup := select pickup_flag (fields (field_creator s)) 0;
           to_dump_latlon := ll;
           diagnostic_data := ∅ |},
        {| dumpdir_exists := true;
           field_output := [];
           field_output_latlon :=
             if bool_decide (0 < length (dumplist_latlon (output s)))%nat
             then [] else field_output_latlon d;
           chkptbk := chkptbk d; chkpt := chkpt d;
           diagnostics_json := diagnostics_json d |}).

(** *** [dump] *)

(** The callables of [gusto.diagnostics], outside the sources: what a
    diagnostic field computes from the state, and the reductions
    [min], [max], [rms], [l2] and [total]. *)
Record substrate : Type := {
  diagnostic_field : nat -> list field -> dofs;
  diagnostic : string -> dofs -> R }.

(** [for field in self.diagnostic_fields: field(self)] *)
Fixpoint eval_diagnostic_fields (S : substrate) (ds : list nat)
    (fs : list field) : list field :=
  match ds with
  | [] => fs
  | i :: rest =>
      eval_diagnostic_fields S rest
        (alter (set_data (diagnostic_field S i fs)) i fs)
  end.

(** The named coefficient vectors a [File.write] receives. *)
Definition snapshot (suffix : string) (fs : list field) (refs : list nat)
  : list (string * dofs) :=
  omap (fun i => (fun f => (String.append (name f) suffix, data f)) <$> fs !! i)
       refs.

(** [self.diagnostic_data[name][fn].append(v)] on a
    [defaultdict(partial(defaultdict, list))]. *)
Definition append_diagnostic (n fn : string) (v : R)
    (dd : gmap string (gmap string (list R)))
  : gmap string (gmap string (list R)) :=
  let inner := default ∅ (dd !! n) in
  <[n := <[fn := default [] (inner !! fn) ++ [v]]> inner]> dd.

Definition diagnostic_fns : list string := ["min"; "max"; "rms"; "l2"].

(** The body of [for name in self.diagnostics.fields]. *)
Definition compute_diagnostics_for (S : substrate) (fc : FieldCreator)
    (n : string) (dd : gmap string (gmap string (list R)))
  : result (gmap string (gmap string (list R))) :=
  '(i, _) ← FieldCreator_call n None true true fc;
  match fields fc !! i with
  | None => Raise AttributeError
  | Some f =>
      let dd := foldl (fun dd fn => append_diagnostic n fn
                                      (diagnostic S fn (data f)) dd)
                      dd diagnostic_fns in
      if bool_decide (length (ufl_shape f) = 0%nat)
      then Ok (append_diagnostic n "total" (diagnostic S "total" (data f)) dd)
      else Ok dd
  end.

Fixpoint compute_diagnostics (S : substrate) (fc : FieldCreator)
    (names : list string) (dd : gmap string (gmap string (list R)))
  : result (gmap string (gmap string (list R))) :=
  match names with
  | [] => Ok dd
  | n :: rest =>
      dd ← compute_diagnostics_for S fc n dd;
      compute_diagnostics S fc rest dd
  end.

(** [for field in self.to_pickup: chk.store(field)]: a dataset per field,
    under the field's name. *)
Fixpoint store_fields (fs : list field) (refs : list nat)
    (ds : gmap string dofs) : gmap string dofs :=
  match refs with
  | [] => ds
  | i :: rest =>
      match fs !! i with
      | Some f => store_fields fs rest (<[name f := data f]> ds)
      | None => store_fields fs rest ds
      end
  end.

(** [for field in self.to_pickup: chk.load(field)]: the dataset under the
    field's name is read into the field; a missing dataset raises. *)
Fixpoint load_fields (ds : gmap string dofs) (refs : list nat)
    (fs : list field) : result (list field) :=
  match refs with
  | [] => Ok fs
  | i :: rest =>
      match fs !! i with
      | Some f =>
          match ds !! name f with
          | Some v => load_fields ds rest (<[i := set_data v f]> fs)
          | None => Raise KeyError
          end
      | None => load_fields ds rest fs
      end
  end.

Definition next_dumpcount (a : dump_attrs) : dump_attrs :=
  {| dumpcount := S (dumpcount a); to_dump := to_dump a;
     to_pickup := to_pickup a; to_dump_latlon := to_dump_latlon a;
     diagnostic_data := diagnostic_data a |}.

Definition set_diagnostic_data (dd : gmap string (gmap string (list R)))
    (a : dump_attrs) : dump_attrs :=
  {| dumpcount := dumpcount a; to_dump := to_dump a;
     to_pickup := to_pickup a; to_dump_latlon := to_dump_latlon a;
     diagnostic_data := dd |}.

(** The branch of [dump] that recovers the state from ["chkpt"]. *)
Definition dump_pickup (s : State) (a : dump_attrs) (d : disk)
  : result (R * State * dump_attrs * disk) :=
  match chkpt d with
  | None => Raise IOError
  | Some chk =>
      fs ← load_fields (datasets chk) (to_pickup a) (fields (field_creator s));
      let t := time chk in
      Ok (t, set_fields fs s, next_dumpcount a, d)
  end.

(** The branch of [dump] that writes output, diagnostics and the two
    checkpoint files. *)
Definition dump_write (S : substrate) (t : R) (diagnostic_everydump : bool)
    (s : State) (a : dump_attrs) (d : disk)
  : result (R * State * dump_attrs * disk) :=
  let fs := eval_diagnostic_fields S (diagnostic_fields s)
              (fields (field_creator s)) in
  let s := set_fields fs s in
  let out := field_output d ++ [snapshot "" fs (to_dump a)] in
  let out_ll :=
    if bool_decide (0 < length (dumplist_latlon (output s)))%nat
    then field_output_latlon d ++ [snapshot "_ll" fs (to_dump_latlon a)]
    else field_output_latlon d in
  dd ← compute_diagnostics S (field_creator s) (diagnostics s)
         (diagnostic_data a);
  let chk := {| datasets := store_fields fs (to_pickup a) ∅; time := t |} in
  Ok (t, s, set_diagnostic_data dd a,
      {| dumpdir_exists := dumpdir_exists d;
         field_output := out;
         field_output_latlon := out_ll;
         chkptbk := Some chk;
         chkpt := Some chk;
         diagnostics_json := if diagnostic_everydump then Some dd
                             else diagnostics_json d |}).

(** [State.dump(t=0, diagnostic_everydump=False, pickup=False)]; the
    result carries the returned time. *)
Definition dump (S : substrate) (t : R) (diagnostic_everydump pickup : bool)
    (s : State) (a : dump_attrs) (d : disk)
  : result (R * State * dump_attrs * disk) :=
  if pickup then dump_pickup s a d
  else
    let k := dumpcount a in
    let a := next_dumpcount a in
    if (dumpfreq (output s) =? 0)%Z then Raise ZeroDivisionError
    else if (Z.of_nat k mod dumpfreq (output s) =? 0)%Z
         then dump_write S t diagnostic_everydump s a d
         else Ok (t, s, a, d).

(** One call of [dump] and a sequence of calls, each on the state the
    previous one left; the returned times are dropped. *)
Record call : Type := {
  call_t : R; call_diagnostic_everydump : bool; call_pickup : bool }.

Fixpoint dumps (S : substrate) (calls : list call)
    (s : State) (a : dump_attrs) (d : disk)
  : result (State * dump_attrs * disk) :=
  match calls with
  | [] => Ok (s, a, d)
  | c :: rest =>
      '(_, s, a, d) ← dump S (call_t c) (call_diagnostic_everydump c)
                        (call_pickup c) s a d;
      dumps S rest s a d
  end.

(** *** A two-dimensional compressible run, used to exercise the
    statements below *)

Definition example_output : OutputParameters :=
  {| dirname := "pytest_example"; dumpfreq := 2; dumplist := None;
     dumplist_latlon := [] |}.

Definition example_substrate : substrate :=
  {| diagnostic_field := fun _ _ => vzero;
     diagnostic := fun _ v => v 0%nat |}.

(** A results directory holding a checkpoint written at time 5. *)
Definition example_disk : disk :=
  {| dumpdir_exists := true;
     field_output := [];
     field_output_latlon := [];
     chkptbk := None;
     chkpt := Some {| datasets := <["u" := fun _ => 1]>
                                    (<["rho" := fun _ => 2]>
                                       (<["theta" := fun _ => 3]> ∅));
                      time := 5 |};
     diagnostics_json := None |}.

Definition example_init : result State :=
  init 2 ["u"; "rho"; "theta"] (Some 1%Z) (Some example_output) None None.

(** *** The dump counter *)

Ltac unfold_bind := unfold mbind, result_bind in *.

Lemma dump_pickup_inv (s s' : State) (a a' : dump_attrs) (d d' : disk)
    (r : R) :
  dump_pickup s a d = Ok (r, s', a', d') ->
  a' = next_dumpcount a /\ d' = d /\
  exists chk fs,
    chkpt d = Some chk /\ r = time chk /\
    load_fields (datasets chk) (to_pickup a) (fields (field_creator s))
    = Ok fs /\
    s' = set_fields fs s.
Proof.
  unfold dump_pickup. destruct (chkpt d) as [chk|]; [|discriminate].
  unfold_bind.
  destruct (load_fields _ _ _) as [fs|] eqn:E; [|discriminate].
  intros H. injection H as <- <- <- <-.
  split; [reflexivity|]. split; [reflexivity|].
  exists chk, fs. repeat split. exact E.
Qed.

Lemma dump_write_inv (S : substrate) (t r : R) (every : bool)
    (s s' : State) (a a' : dump_attrs) (d d' : disk) :
  dump_write S t every s a d = Ok (r, s', a', d') ->
  let fs := eval_diagnostic_fields S (diagnostic_fields s)
              (fields (field_creator s)) in
  r = t /\ s' = set_fields fs s /\
  dumpcount a' = dumpcount a /\ to_pickup a' = to_pickup a /\
  field_output d' = field_output d ++ [snapshot "" fs (to_dump a)] /\
  chkpt d' = Some {| datasets := store_fields fs (to_pickup a) ∅;
                     time := t |} /\
  chkptbk d' = chkpt d' /\
  compute_diagnostics S (field_creator (set_fields fs s)) (diagnostics s)
    (diagnostic_data a) = Ok (diagnostic_data a').
Proof.
  unfold dump_write. unfold_bind. cbv zeta.
  destruct (compute_diagnostics _ _ _ _) as [dd|] eqn:E; [|discriminate].
  intros H. injection H as <- <- <- <-.
  repeat split; reflexivity.
Qed.

Lemma dump_advances (S : substrate) (t r : R) (every pickup : bool)
    (s s' : State) (a a' : dump_attrs) (d d' : disk) :
  dump S t every pickup s a d = Ok (r, s', a', d') ->
  dumpcount a' = Datatypes.S (dumpcount a).
Proof.
  unfold dump. destruct pickup.
  - intros H. apply dump_pickup_inv in H as (-> & _). reflexivity.
  - destruct (dumpfreq (output s) =? 0)%Z; [discriminate|].
    destruct (Z.of_nat (dumpcount a) mod dumpfreq (output s) =? 0)%Z.
    + intros H. apply dump_write_inv in H as (_ & _ & -> & _). reflexivity.
    + intros H. injection H as _ _ <- _. reflexivity.
Qed.

Lemma dumps_count (S : substrate) (calls : list call) :
  forall (s s' : State) (a a' : dump_attrs) (d d' : disk),
    dumps S calls s a d = Ok (s', a', d') ->
    dumpcount a' = (dumpcount a + length calls)%nat.
Proof.
  induction calls as [|c rest IH]; intros s s' a a' d d' H; simpl in H.
  - injection H as _ <- _. simpl. lia.
  - unfold_bind.
    destruct (dump S (call_t c) (call_diagnostic_everydump c) (call_pickup c)
                s a d) as [[[[r s1] a1] d1]|] eqn:E; [|discriminate].
    apply dump_advances in E. apply IH in H. simpl. lia.
Qed.

Lemma setup_dump_count (rank : nat) (pickup : bool) (s : State)
    (a : dump_attrs) (d d' : disk) :
  setup_dump rank pickup s d = Ok (a, d') ->
  dumpcount a = 0%nat /\
  to_pickup a = select pickup_flag (fields (field_creator s)) 0 /\
  to_dump a = select dump_flag (fields (field_creator s)) 0 /\
  diagnostic_data a = ∅.
Proof.
  unfold setup_dump.
  destruct (_ && _ && _ && _); [discriminate|].
  unfold_bind. destruct (lookup_all _ _); [|discriminate].
  intros H. injection H as <- _. auto.
Qed.

(** What [State.__init__] and [setup_dump(pickup=True)] leave for the
    example run. *)
Definition example_state : State :=
  {| fieldlist := ["u"; "rho"; "theta"];
     output := set_dumplist ["u"; "rho"; "theta"] example_output;
     diagnostics := ["u"; "rho"; "theta"];
     diagnostic_fields := [];
     field_creator :=
       FieldCreator_init
         (zip ["u"; "rho"; "theta"] (xn_split 2 (Some 1%Z)))
         ["u"; "rho"; "theta"] {| attrs := ∅; fields := [] |} |}.

Definition example_attrs : dump_attrs :=
  {| dumpcount := 0; to_dump := [0; 1; 2]%nat; to_pickup := [0; 1; 2]%nat;
     to_dump_latlon := []; diagnostic_data := ∅ |}.

Lemma example_init_ok : example_init = Ok example_state.
Proof. reflexivity. Qed.

Lemma example_setup_dump :
  setup_dump 0 true example_state example_disk
  = Ok (example_attrs, example_disk).
Proof. reflexivity. Qed.

(** Every name of [self.diagnostics.fields] is the name of a field. *)
Definition diagnostics_registered (s : State) : Prop :=
  forall n : string, n ∈ diagnostics s ->
    exists i : nat, attrs (field_creator s) !! n = Some i /\
                    (i < length (fields (field_creator s)))%nat.

Lemma eval_diagnostic_fields_length (S : substrate) (ds : list nat) :
  forall fs : list field,
    length (eval_diagnostic_fields S ds fs) = length fs.
Proof.
  induction ds as [|i rest IH]; intros fs; simpl; [reflexivity|].
  rewrite IH. apply length_alter.
Qed.

Lemma compute_diagnostics_ok (S : substrate) (fc : FieldCreator)
    (names : list string) :
  (forall n : string, n ∈ names ->
     exists i : nat, attrs fc !! n = Some i /\ (i < length (fields fc))%nat) ->
  forall dd, exists dd', compute_diagnostics S fc names dd = Ok dd'.
Proof.
  induction names as [|n rest IH]; intros Hreg dd; simpl.
  - eauto.
  - destruct (Hreg n) as (i & Hi & Hlt); [left|].
    apply lookup_lt_is_Some in Hlt as [f Hf].
    unfold compute_diagnostics_for, FieldCreator_call. rewrite Hi.
    unfold_bind. rewrite Hf.
    destruct (bool_decide _);
      apply IH; intros m Hm; apply Hreg; right; exact Hm.
Qed.

(** C7, as stated, fails in a run that starts from a checkpoint: with
    [dumpfreq = 2], after [setup_dump] and the [dump(pickup=True)] call, the
    first call with [pickup=False] (number 0 among such calls, and
    [0 mod 2 = 0]) finds the counter at 1 and writes nothing. *)
Lemma first_dump_after_pickup_writes_nothing :
  exists (t1 : R) (s1 : State) (a1 : dump_attrs),
    setup_dump 0 true example_state example_disk
    = Ok (example_attrs, example_disk) /\
    dump example_substrate 0 false true example_state example_attrs
      example_disk = Ok (t1, s1, a1, example_disk) /\
    dumpfreq (output s1) = 2%Z /\ (0 mod 2 = 0)%Z /\
    dumpcount a1 = 1%nat /\
    dump example_substrate t1 false false s1 a1 example_disk
    = Ok (t1, s1, next_dumpcount a1, example_disk).
Proof.
  eexists _, _, _.
  split; [reflexivity|]. split; [reflexivity|]. repeat split; reflexivity.
Qed.

(** C7 (amended). Let [k] be the value of the dump counter, which is the
    number of calls to [dump] made since [setup_dump], with or without
    [pickup].  A call with [pickup=False] writes field output, diagnostics
    and both checkpoint files if and only if [k mod dumpfreq = 0]; otherwise
    it leaves the disk, the fields and the diagnostic data as they were.  A
    call with [pickup=True] leaves the disk and the diagnostic data as they
    were.  Every call that returns advances the counter by exactly one. *)
Theorem dump_cadence (S : substrate) (t : R) (every : bool)
    (s : State) (a : dump_attrs) (d : disk) :
  dumpfreq (output s) <> 0%Z ->
  diagnostics_registered s ->
  (if decide (Z.of_nat (dumpcount a) mod dumpfreq (output s) = 0)%Z
   then exists s' a' d',
       dump S t every false s a d = Ok (t, s', a', d') /\
       dumpcount a' = Datatypes.S (dumpcount a) /\
       field_output d'
       = field_output d
         ++ [snapshot "" (fields (field_creator s')) (to_dump a)] /\
       chkpt d'
       = Some {| datasets := store_fields (fields (field_creator s'))
                               (to_pickup a) ∅;
                 time := t |} /\
       chkptbk d' = chkpt d' /\
       compute_diagnostics S (field_creator s') (diagnostics s)
         (diagnostic_data a) = Ok (diagnostic_data a')
   else dump S t every false s a d = Ok (t, s, next_dumpcount a, d)) /\
  (forall r s' a' d',
      dump S t every true s a d = Ok (r, s', a', d') ->
      dumpcount a' = Datatypes.S (dumpcount a) /\ d' = d /\
      diagnostic_data a' = diagnostic_data a) /\
  (forall rank pickup s0 a0 d0 d0' calls,
      setup_dump rank pickup s0 d0 = Ok (a0, d0') ->
      dumps S calls s0 a0 d0' = Ok (s, a, d) ->
      dumpcount a = length calls).
Proof.
  intros Hfreq Hreg. split; [|split].
  - unfold dump.
    destruct (Z.eqb_spec (dumpfreq (output s)) 0) as [E|_]; [contradiction|].
    destruct (decide (Z.of_nat (dumpcount a) mod dumpfreq (output s) = 0)%Z)
      as [E|N].
    + rewrite E. simpl.
      set (fs := eval_diagnostic_fields S (diagnostic_fields s)
                   (fields (field_creator s))).
      destruct (compute_diagnostics_ok S (field_creator (set_fields fs s))
                  (diagnostics s)) with (dd := diagnostic_data a)
        as [dd' Hdd].
      { intros n Hn. destruct (Hreg n Hn) as (i & Hi & Hlt).
        exists i. split; [exact Hi|]. simpl. unfold fs.
        rewrite eval_diagnostic_fields_length. exact Hlt. }
      unfold dump_write. unfold_bind. fold fs. simpl.
      simpl in Hdd. rewrite Hdd.
      eexists _, _, _. split; [reflexivity|]. simpl.
      repeat split; try reflexivity. exact Hdd.
    + destruct (Z.eqb_spec (Z.of_nat (dumpcount a) mod dumpfreq (output s)) 0)
        as [E|_]; [contradiction | reflexivity].
  - intros r s' a' d' H. unfold dump in H.
    apply dump_pickup_inv in H as (-> & -> & _). auto.
  - intros rank pickup s0 a0 d0 d0' calls Hsetup Hrun.
    apply setup_dump_count in Hsetup as (H0 & _).
    apply dumps_count in Hrun. lia.
Qed.

Lemma example_registered : diagnostics_registered example_state.
Proof.
  intros n Hn. simpl in Hn.
  repeat (apply elem_of_cons in Hn as [->|Hn]).
  - exists 0%nat. split; [reflexivity | simpl; lia].
  - exists 1%nat. split; [reflexivity | simpl; lia].
  - exists 2%nat. split; [reflexivity | simpl; lia].
  - apply elem_of_nil in Hn. contradiction.
Qed.

Lemma dump_cadence_witness :
  exists s' a' d',
    dump example_substrate 7 false false example_state example_attrs
      example_disk = Ok (7, s', a', d') /\
    dumpcount a' = 1%nat.
Proof.
  assert (Hfreq : dumpfreq (output example_state) <> 0%Z)
    by (simpl; discriminate).
  destruct (dump_cadence example_substrate 7 false example_state
              example_attrs example_disk Hfreq example_registered)
    as (Hw & _ & _).
  simpl in Hw. destruct Hw as (s' & a' & d' & H & Hc & _).
  exists s', a', d'. split; [exact H | exact Hc].
Defined.

(** *** Checkpoints *)

Lemma elem_of_select (P : field -> bool) (fs : list field) :
  forall k j : nat,
    j ∈ select P fs k <->
    exists f, (k <= j)%nat /\ fs !! (j - k)%nat = Some f /\ P f = true.
Proof.
  induction fs as [|f0 fs' IH]; intros k j; simpl.
  - split; [intros H; apply elem_of_nil in H; contradiction|].
    intros (f & _ & H & _). discriminate.
  - assert (Htail : j ∈ select P fs' (Datatypes.S k) <->
                    exists f, (k < j)%nat /\
                              (f0 :: fs') !! (j - k)%nat = Some f /\
                              P f = true).
    { rewrite IH. split.
      - intros (f & Hle & Hf & HP). exists f. split; [lia|]. split; [|exact HP].
        replace (j - k)%nat with (Datatypes.S (j - Datatypes.S k)) by lia.
        exact Hf.
      - intros (f & Hlt & Hf & HP). exists f. split; [lia|]. split; [|exact HP].
        replace (j - k)%nat with (Datatypes.S (j - Datatypes.S k)) in Hf by lia.
        exact Hf. }
    destruct (P f0) eqn:HP0.
    + rewrite elem_of_cons, Htail. split.
      * intros [-> | (f & Hlt & Hf & HP)].
        -- exists f0. rewrite Nat.sub_diag. auto.
        -- exists f. split; [lia | auto].
      * intros (f & Hle & Hf & HP).
        destruct (decide (j = k)) as [->|N]; [left; reflexivity|].
        right. exists f. split; [lia | auto].
    + rewrite Htail. split.
      * intros (f & Hlt & Hf & HP). exists f. split; [lia | auto].
      * intros (f & Hle & Hf & HP).
        destruct (decide (j = k)) as [->|N].
        -- rewrite Nat.sub_diag in Hf. simpl in Hf. injection Hf as <-.
           congruence.
        -- exists f. split; [lia | auto].
Qed.

(** Evaluating the diagnostic fields changes coefficients only. *)
Lemma eval_diagnostic_fields_lookup (S : substrate) (ds : list nat) :
  forall (fs : list field) (i : nat) (f' : field),
    eval_diagnostic_fields S ds fs !! i = Some f' ->
    exists f, fs !! i = Some f /\ name f' = name f /\
              pickup_flag f' = pickup_flag f.
Proof.
  induction ds as [|j rest IH]; intros fs i f' H; simpl in H.
  - exists f'. auto.
  - apply IH in H as (f1 & H1 & Hn & Hp).
    rewrite list_lookup_alter in H1.
    destruct (decide (j = i)) as [->|N].
    + destruct (fs !! i) as [f|] eqn:E; [|discriminate].
      simpl in H1. injection H1 as <-. exists f. auto.
    + exists f1. auto.
Qed.

Lemma eval_diagnostic_fields_names (S : substrate) (ds : list nat)
    (fs : list field) :
  name <$> eval_diagnostic_fields S ds fs = name <$> fs.
Proof.
  apply list_eq. intros i. rewrite !list_lookup_fmap.
  destruct (eval_diagnostic_fields S ds fs !! i) as [f'|] eqn:E.
  - apply eval_diagnostic_fields_lookup in E as (f & -> & Hn & _).
    simpl. congruence.
  - apply lookup_ge_None in E. rewrite eval_diagnostic_fields_length in E.
    apply lookup_ge_None in E. rewrite E. reflexivity.
Qed.

(** A dataset already holding the coefficients of a field keeps them
    through later stores, as no other field has its name. *)
Lemma store_fields_keeps (fs : list field) (i : nat) (f : field) :
  NoDup (name <$> fs) -> fs !! i = Some f ->
  forall (refs : list nat) (ds : gmap string dofs),
    ds !! name f = Some (data f) ->
    store_fields fs refs ds !! name f = Some (data f).
Proof.
  intros Hnd Hf. induction refs as [|j rest IH]; intros ds Hds; simpl.
  - exact Hds.
  - destruct (fs !! j) as [g|] eqn:Hg; [|apply IH; exact Hds].
    apply IH. destruct (decide (name g = name f)) as [E|N].
    + assert (j = i) as ->.
      { apply (proj1 (NoDup_alt _) Hnd j i (name f)).
        - rewrite list_lookup_fmap, Hg. simpl. congruence.
        - rewrite list_lookup_fmap, Hf. reflexivity. }
      rewrite Hf in Hg. injection Hg as <-. apply lookup_insert_eq.
    + rewrite lookup_insert_ne by exact N. exact Hds.
Qed.

Lemma store_fields_lookup (fs : list field) (i : nat) (f : field) :
  NoDup (name <$> fs) -> fs !! i = Some f ->
  forall (refs : list nat) (ds : gmap string dofs),
    i ∈ refs ->
    store_fields fs refs ds !! name f = Some (data f).
Proof.
  intros Hnd Hf. induction refs as [|j rest IH]; intros ds Hi.
  - apply elem_of_nil in Hi. contradiction.
  - apply elem_of_cons in Hi as [<- | Hi]; simpl.
    + rewrite Hf. apply (store_fields_keeps fs i f Hnd Hf).
      apply lookup_insert_eq.
    + destruct (fs !! j); apply IH; exact Hi.
Qed.

(** What a field holds after the loads: the dataset under its name if it
    is among the references, its own coefficients otherwise. *)
Definition loaded (ds : gmap string dofs) (refs : list nat) (i : nat)
    (f : field) : field :=
  if decide (i ∈ refs) then set_data (default (data f) (ds !! name f)) f
  else f.

Lemma loaded_cons_ne (ds : gmap string dofs) (j : nat) (rest : list nat)
    (i : nat) (f : field) :
  i <> j -> loaded ds (j :: rest) i f = loaded ds rest i f.
Proof.
  intros N. unfold loaded.
  destruct (decide (i ∈ j :: rest)) as [H|H], (decide (i ∈ rest)) as [H'|H'];
    try reflexivity.
  - apply elem_of_cons in H as [->|H]; contradiction.
  - exfalso. apply H. right. exact H'.
Qed.

Lemma load_fields_spec (ds : gmap string dofs) (refs : list nat) :
  forall fs : list field,
    (forall i f, i ∈ refs -> fs !! i = Some f -> is_Some (ds !! name f)) ->
    exists fs',
      load_fields ds refs fs = Ok fs' /\
      forall i : nat, fs' !! i = loaded ds refs i <$> fs !! i.
Proof.
  induction refs as [|j rest IH]; intros fs Hpre; simpl.
  - exists fs. split; [reflexivity|]. intros i. unfold loaded.
    destruct (fs !! i); simpl; [|reflexivity].
    destruct (decide (i ∈ [])) as [H|_]; [|reflexivity].
    apply elem_of_nil in H. contradiction.
  - destruct (fs !! j) as [g|] eqn:Hg.
    + destruct (Hpre j g) as [v Hv]; [left | exact Hg |]. rewrite Hv.
      assert (Hlt : (j < length fs)%nat)
        by (apply lookup_lt_is_Some; eauto).
      destruct (IH (<[j := set_data v g]> fs)) as (fs' & Hload & Hlook).
      { intros i f Hi Hf.
        destruct (decide (j = i)) as [<-|N].
        - rewrite list_lookup_insert_eq in Hf by exact Hlt.
          injection Hf as <-. simpl. eauto.
        - rewrite list_lookup_insert_ne in Hf by exact N.
          apply (Hpre i f); [right; exact Hi | exact Hf]. }
      exists fs'. split; [exact Hload|]. intros i. rewrite Hlook.
      destruct (decide (j = i)) as [<-|N].
      * rewrite list_lookup_insert_eq by exact Hlt. rewrite Hg. simpl.
        f_equal. unfold loaded.
        destruct (decide (j ∈ j :: rest)) as [_|H]; [|exfalso; apply H; left].
        rewrite Hv. simpl.
        destruct (decide (j ∈ rest)); [|reflexivity].
        simpl. rewrite Hv. reflexivity.
      * rewrite list_lookup_insert_ne by exact N.
        destruct (fs !! i) as [f|]; simpl; [|reflexivity].
        rewrite loaded_cons_ne by congruence. reflexivity.
    + destruct (IH fs) as (fs' & Hload & Hlook).
      { intros i f Hi Hf. apply (Hpre i f); [right; exact Hi | exact Hf]. }
      exists fs'. split; [exact Hload|]. intros i. rewrite Hlook.
      destruct (decide (i = j)) as [->|N].
      * rewrite Hg. reflexivity.
      * destruct (fs !! i) as [f|]; simpl; [|reflexivity].
        rewrite loaded_cons_ne by exact N. reflexivity.
Qed.

(** C6. Checkpoint round trip.  Take a state whose fields have distinct
    names and whose [to_pickup] is the list [setup_dump] builds (the fields
    with the pickup flag).  After a [dump] call that writes, a
    [dump(pickup=True)] call made on the same field objects, whatever they
    hold by then, and on the disk the write left, returns the time that was
    stored, gives every field with the pickup flag the coefficients it had
    when the checkpoint was written, and leaves every other field as it
    is. *)
Theorem checkpoint_round_trip (S : substrate) (t r : R) (every : bool)
    (s1 s1' : State) (a1 a1' : dump_attrs) (d1 d1' : disk) :
  NoDup (name <$> fields (field_creator s1)) ->
  to_pickup a1 = select pickup_flag (fields (field_creator s1)) 0 ->
  (Z.of_nat (dumpcount a1) mod dumpfreq (output s1) = 0)%Z ->
  dump S t every false s1 a1 d1 = Ok (r, s1', a1', d1') ->
  forall (t2 : R) (every2 : bool) (s2 : State) (a2 : dump_attrs),
    name <$> fields (field_creator s2) = name <$> fields (field_creator s1') ->
    to_pickup a2 = to_pickup a1' ->
    exists s3 a3,
      dump S t2 every2 true s2 a2 d1' = Ok (t, s3, a3, d1') /\
      (forall i f,
          fields (field_creator s1') !! i = Some f -> pickup_flag f = true ->
          exists f3, fields (field_creator s3) !! i = Some f3 /\
                     data f3 = data f /\ name f3 = name f) /\
      (forall i f,
          fields (field_creator s1') !! i = Some f -> pickup_flag f = false ->
          fields (field_creator s3) !! i = fields (field_creator s2) !! i).
Proof.
  intros Hnd Hpick Hmod Hdump t2 every2 s2 a2 Hnames Hrefs.
  unfold dump in Hdump.
  destruct (dumpfreq (output s1) =? 0)%Z; [discriminate|].
  rewrite Hmod in Hdump. simpl in Hdump.
  apply dump_write_inv in Hdump
    as (-> & -> & _ & Hp' & _ & Hchk & _). simpl in Hp'.
  set (fs := eval_diagnostic_fields S (diagnostic_fields s1)
               (fields (field_creator s1))) in *.
  simpl in Hnames |- *.
  assert (Hnd' : NoDup (name <$> fs))
    by (unfold fs; rewrite eval_diagnostic_fields_names; exact Hnd).
  rewrite Hp' in Hrefs.
  set (ds := store_fields fs (to_pickup a1) ∅) in *.
  assert (Hsame : forall i f2, fields (field_creator s2) !! i = Some f2 ->
            exists f, fs !! i = Some f /\ name f = name f2).
  { intros i f2 H2.
    assert (E : (name <$> fs) !! i = Some (name f2))
      by (rewrite <- Hnames, list_lookup_fmap, H2; reflexivity).
    rewrite list_lookup_fmap in E.
    destruct (fs !! i) as [f|]; [|discriminate].
    exists f. split; [reflexivity|]. simpl in E. congruence. }
  assert (Hflag : forall i f, fs !! i = Some f ->
            (i ∈ to_pickup a1 <-> pickup_flag f = true)).
  { intros i f Hf. rewrite Hpick, elem_of_select.
    apply eval_diagnostic_fields_lookup in Hf as (f0 & H0 & _ & Hp).
    split.
    - intros (g & _ & Hg & HP). rewrite Nat.sub_0_r, H0 in Hg.
      injection Hg as <-. congruence.
    - intros HP. exists f0. rewrite Nat.sub_0_r.
      split; [lia|]. split; [exact H0 | congruence]. }
  destruct (load_fields_spec ds (to_pickup a2) (fields (field_creator s2)))
    as (fs3 & Hload & Hlook).
  { intros i f2 Hi H2. destruct (Hsame i f2 H2) as (f & Hf & Hn).
    rewrite <- Hn. exists (data f).
    apply (store_fields_lookup fs i f Hnd' Hf).
    rewrite <- Hrefs. exact Hi. }
  exists (set_fields fs3 s2), (next_dumpcount a2).
  split; [|split].
  - unfold dump_pickup. rewrite Hchk. simpl. fold ds. rewrite Hload.
    reflexivity.
  - intros i f Hf HP. simpl. rewrite Hlook.
    assert (Hlen : is_Some (fields (field_creator s2) !! i)).
    { apply lookup_lt_is_Some.
      rewrite <- (length_fmap name), Hnames, length_fmap.
      apply lookup_lt_is_Some. eauto. }
    destruct Hlen as [f2 H2]. rewrite H2. simpl.
    destruct (Hsame i f2 H2) as (f' & Hf' & Hn).
    rewrite Hf in Hf'. injection Hf' as <-.
    eexists. split; [reflexivity|]. unfold loaded.
    destruct (decide (i ∈ to_pickup a2)) as [_|N].
    + assert (Hds : ds !! name f2 = Some (data f)).
      { rewrite <- Hn. apply (store_fields_lookup fs i f Hnd' Hf).
        apply (Hflag i f Hf). exact HP. }
      rewrite Hds. simpl. split; [reflexivity | congruence].
    + exfalso. apply N. rewrite Hrefs. apply (Hflag i f Hf). exact HP.
  - intros i f Hf HP. simpl. rewrite Hlook.
    destruct (fields (field_creator s2) !! i) as [f2|]; simpl; [|reflexivity].
    unfold loaded. destruct (decide (i ∈ to_pickup a2)) as [H|_];
      [|reflexivity].
    rewrite Hrefs in H. apply (Hflag i f Hf) in H. congruence.
Qed.

Lemma example_names_NoDup :
  NoDup (name <$> fields (field_creator example_state)).
Proof.
  change (NoDup ["u"; "rho"; "theta"]). compute_done.
Qed.

Lemma checkpoint_round_trip_witness :
  exists s1' a1' d1' s3 a3,
    dump example_substrate 7 false false example_state example_attrs
      example_disk = Ok (7, s1', a1', d1') /\
    dump example_substrate 0 false true example_state
      (next_dumpcount example_attrs) d1' = Ok (7, s3, a3, d1').
Proof.
  assert (Hpick : to_pickup example_attrs
                  = select pickup_flag (fields (field_creator example_state)) 0)
    by reflexivity.
  assert (Hmod : (Z.of_nat (dumpcount example_attrs)
                  mod dumpfreq (output example_state) = 0)%Z)
    by reflexivity.
  pose proof (checkpoint_round_trip example_substrate 7 7 false
                example_state _ example_attrs _ example_disk _
                example_names_NoDup Hpick Hmod eq_refl) as RT.
  destruct (RT 0 false example_state (next_dumpcount example_attrs)
              eq_refl eq_refl) as (s3 & a3 & H & _).
  eexists _, _, _, s3, a3. split; [reflexivity | exact H].
Defined.

End State.

(** ** Unsupported configurations *)






(** ** The remaining thermodynamic expressions
    ([gusto/expressions.py], [exner_rho] and [exner_theta] of
    [gusto/forcing.py]) *)

Module Expressions.

Import Thermodynamics.

(** [forcing.py: exner_rho(theta, rho, state)] *)
Definition exner_rho (P : parameters) (theta rho : R) : R :=
  power (R_d P / p_0 P) (kappa P / (1 - kappa P))
  * power (rho * theta) (kappa P / (1 - kappa P) - 1)
  * theta * kappa P / (1 - kappa P).

(** [forcing.py: exner_theta(theta, rho, state)] *)
Definition exner_theta (P : parameters) (theta rho : R) : R :=
  power (R_d P / p_0 P) (kappa P / (1 - kappa P))
  * power (rho * theta) (kappa P / (1 - kappa P) - 1)
  * rho * kappa P / (1 - kappa P).

(** [expressions.py: pi_rho_expr] *)
Definition pi_rho_expr (P : parameters) (rho theta_v : R) : R :=
  (kappa P / (1 - kappa P))
  * power (rho * R_d P * theta_v / p_0 P) (kappa P / (1 - kappa P)) / rho.

(** [expressions.py: pi_theta_expr] *)
Definition pi_theta_expr (P : parameters) (rho theta_v : R) : R :=
  (kappa P / (1 - kappa P))
  * power (rho * R_d P * theta_v / p_0 P) (kappa P / (1 - kappa P))
  / theta_v.

(** [expressions.py: theta_e_expr]; as for every expression here, [/] is
    the division of real numbers, and a statement lists the divisors it
    needs to be non-zero, where the source raises. *)
Definition theta_e_expr (P : parameters) (T p r_v r_t : R) : R :=
  let Lv := Lv_expr P T in
  T * power (p_0 P * (1 + r_v * R_v P / R_d P) / p)
            (R_d P / (cp P + c_pl P * r_t))
  * exp (Lv * r_v / (T * (cp P + c_pl P * r_t))).

(** [expressions.py: I_expr] *)
Definition I_expr (P : parameters) (rho T r_v r_l : R) : R :=
  let Lv := Lv_expr P T in
  rho * (cv P * T + r_v * c_vv P * T + r_l * (c_pv P * T - Lv)).

(** [expressions.py: RH_expr] *)
Definition RH_expr (P : parameters) (r_v T p : R) : R :=
  let r_sat := r_sat_expr P T p in
  r_v / r_sat.

(** [expressions.py: e_sat_expr] *)
Definition e_sat_expr (P : parameters) (T : R) : R :=
  w_sat4 P * exp (- w_sat2 P * (T - T_0 P) / (T - w_sat3 P)).

(** [expressions.py: e_expr] *)
Definition e_expr (P : parameters) (p r_v : R) : R :=
  let epsilon := R_d P / R_v P in
  p * r_v / (epsilon + r_v).

(** [expressions.py: r_v_expr] *)
Definition r_v_expr (P : parameters) (H T p : R) : R :=
  let epsilon := R_d P / R_v P in
  let r_sat := r_sat_expr P T p in
  H * r_sat / (1 + (1 - H) * r_sat / epsilon).

(** [expressions.py: T_d_expr] *)
Definition T_d_expr (P : parameters) (p r_v : R) : R :=
  let e := p * r_v / (r_v + R_d P / R_v P) in
  243.5 / ((17.67 / ln (e / 611.2)) - 1) + T_0 P.

(** Parameters close to those of dry air and Tetens' formula, with
    [kappa = R_d / cp]. *)
Definition air_parameters : parameters :=
  {| R_d := 287; p_0 := 100000; kappa := 2 / 7; R_v := 461;
     cp := 1004.5; cv := 717; c_pv := 1885; c_pl := 4186; c_vv := 1424;
     L_v0 := 2500000; T_0 := 273.15;
     w_sat1 := 380.3; w_sat2 := 17.27; w_sat3 := 35.86; w_sat4 := 610.9 |}.

(** *** Powers *)

Lemma Rpower_pred (x e : R) : 0 < x -> Rpower x (e - 1) = Rpower x e / x.
Proof.
  intros Hx. unfold Rminus. rewrite Rpower_plus, Rpower_Ropp.
  rewrite Rpower_1 by assumption. reflexivity.
Qed.

Lemma Rpower_succ (x e : R) : 0 < x -> Rpower x e = Rpower x (e - 1) * x.
Proof.
  intros Hx. rewrite Rpower_pred by assumption. field. lra.
Qed.

Lemma Rpower_pos (x e : R) : 0 < Rpower x e.
Proof. apply exp_pos. Qed.

(** *** Agreement of the two modules *)

(** The derivatives of the Exner pressure written in [forcing.py] agree
    with those of [expressions.py]: for positive [rho], [theta], [R_d],
    [p_0] and [kappa <> 1], [exner_rho = pi_rho_expr] and
    [exner_theta = pi_theta_expr]. *)
Theorem exner_derivatives_agree (P : parameters) (rho theta : R) :
  0 < rho -> 0 < theta -> 0 < R_d P -> 0 < p_0 P -> kappa P <> 1 ->
  exner_rho P theta rho = pi_rho_expr P rho theta /\
  exner_theta P theta rho = pi_theta_expr P rho theta.
Proof.
  intros Hrho Hth HR Hp Hk1.
  assert (Hq : 0 < R_d P / p_0 P) by (apply Rdiv_lt_0_compat; assumption).
  assert (Hm : 0 < rho * theta) by (apply Rmult_lt_0_compat; assumption).
  assert (Hall : 0 < rho * R_d P * theta / p_0 P).
  { apply Rdiv_lt_0_compat; [|assumption].
    repeat apply Rmult_lt_0_compat; assumption. }
  unfold exner_rho, exner_theta, pi_rho_expr, pi_theta_expr.
  rewrite !power_pos by assumption.
  rewrite Rpower_pred by assumption.
  replace (rho * R_d P * theta / p_0 P) with (R_d P / p_0 P * (rho * theta))
    by (field; lra).
  rewrite <- (Rpower_mult_distr (R_d P / p_0 P) (rho * theta))
    by assumption.
  split; field; lra.
Qed.

Lemma exner_derivatives_agree_witness :
  exner_rho air_parameters 300 1 = pi_rho_expr air_parameters 1 300.
Proof.
  apply (exner_derivatives_agree air_parameters 1 300); simpl; lra.
Defined.

(** *** Round trips and the equation of state *)

(** Computing the Exner pressure from a density and recovering the density
    from it gives the density back, for positive [rho], [theta_v], [R_d],
    [p_0] and [kappa] other than 0 and 1. *)
Theorem rho_expr_pi_expr (P : parameters) (rho theta_v : R) :
  0 < rho -> 0 < theta_v -> 0 < R_d P -> 0 < p_0 P ->
  kappa P <> 0 -> kappa P <> 1 ->
  rho_expr P theta_v (pi_expr P rho theta_v) = rho.
Proof.
  intros Hrho Hth HR Hp Hk0 Hk1. unfold rho_expr, pi_expr.
  assert (Hall : 0 < rho * R_d P * theta_v / p_0 P).
  { apply Rdiv_lt_0_compat; [|assumption].
    repeat apply Rmult_lt_0_compat; assumption. }
  rewrite (power_pos (rho * R_d P * theta_v / p_0 P)) by assumption.
  rewrite power_pos by apply Rpower_pos.
  rewrite Rpower_mult.
  replace (kappa P / (1 - kappa P) * (1 / kappa P - 1)) with 1
    by (field; lra).
  rewrite Rpower_1 by assumption. field. lra.
Qed.

Lemma rho_expr_pi_expr_witness :
  rho_expr air_parameters 300 (pi_expr air_parameters 1 300) = 1.
Proof.
  apply (rho_expr_pi_expr air_parameters 1 300); simpl; lra.
Defined.

(** The expressions satisfy the ideal gas law [p = rho * R_d * T]: for a
    positive Exner pressure, non-zero [theta], [R_d] and [kappa],
    [p_expr pi = rho_expr theta pi * R_d * T_expr theta pi]. *)
Theorem ideal_gas_law (P : parameters) (theta pi : R) :
  0 < pi -> theta <> 0 -> R_d P <> 0 -> kappa P <> 0 ->
  p_expr P pi = rho_expr P theta pi * R_d P * T_expr P theta pi None.
Proof.
  intros Hpi Hth HR Hk. unfold p_expr, rho_expr, T_expr.
  rewrite !power_pos by assumption.
  rewrite (Rpower_succ pi (1 / kappa P)) by assumption.
  field. lra.
Qed.

Lemma ideal_gas_law_witness :
  p_expr air_parameters 1
  = rho_expr air_parameters 300 1 * R_d air_parameters
    * T_expr air_parameters 300 1 None.
Proof.
  apply (ideal_gas_law air_parameters 300 1); simpl; lra.
Defined.

(** The temperature survives the passage through the potential
    temperature: at the pressure of a positive Exner pressure [pi],
    [T_expr (theta_expr T p) pi = T]. *)
Theorem T_expr_theta_expr (P : parameters) (T pi : R) :
  0 < pi -> 0 < p_0 P -> kappa P <> 0 ->
  T_expr P (theta_expr P T (p_expr P pi)) pi None = T.
Proof.
  intros Hpi Hp Hk. unfold T_expr, theta_expr, p_expr.
  rewrite (power_pos pi) by assumption.
  replace (p_0 P / (p_0 P * Rpower pi (1 / kappa P)))
    with (Rpower pi (- (1 / kappa P))).
  2:{ rewrite Rpower_Ropp. field. split; [|lra].
      apply Rgt_not_eq, Rpower_pos. }
  rewrite power_pos by apply Rpower_pos.
  rewrite Rpower_mult.
  replace (- (1 / kappa P) * kappa P) with (- (1)) by (field; lra).
  rewrite Rpower_Ropp, Rpower_1 by assumption. field. lra.
Qed.

Lemma T_expr_theta_expr_witness :
  T_expr air_parameters
    (theta_expr air_parameters 280 (p_expr air_parameters 1)) 1 None = 280.
Proof.
  apply (T_expr_theta_expr air_parameters 280 1); simpl; lra.
Defined.

(** *** Derivatives *)

(** [r |-> (r * c) ** e] has derivative [e * (x * c) ** e / x] at a
    positive [x], for positive [c]. *)
Lemma derivable_pt_lim_power_scaled (c e x : R) :
  0 < c -> 0 < x ->
  derivable_pt_lim (fun r => power (r * c) e) x (e * power (x * c) e / x).
Proof.
  intros Hc Hx.
  assert (Hxc : 0 < x * c) by (apply Rmult_lt_0_compat; assumption).
  apply (derivable_pt_lim_locally_ext
           (comp (fun y => Rpower y e) (mult_real_fct c id))
           _ x (x / 2) (x + 1)).
  - lra.
  - intros z [Hz _]. unfold comp, mult_real_fct, id.
    rewrite power_pos by (apply Rmult_lt_0_compat; lra).
    f_equal. ring.
  - replace (e * power (x * c) e / x)
      with (e * Rpower (mult_real_fct c id x) (e - 1) * (c * 1)).
    + apply derivable_pt_lim_comp.
      * apply derivable_pt_lim_scal, derivable_pt_lim_id.
      * apply derivable_pt_lim_power. unfold mult_real_fct, id. lra.
    + unfold mult_real_fct, id. rewrite power_pos by assumption.
      replace (c * x) with (x * c) by ring.
      rewrite Rpower_pred by assumption. field. lra.
Qed.

(** [pi_rho_expr] and [pi_theta_expr] are the partial derivatives of
    [pi_expr] with respect to the density and to the potential temperature,
    at positive [rho], [theta_v], [R_d] and [p_0]. *)
Theorem pi_expr_derivatives (P : parameters) (rho theta_v : R) :
  0 < rho -> 0 < theta_v -> 0 < R_d P -> 0 < p_0 P ->
  derivable_pt_lim (fun r => pi_expr P r theta_v) rho
    (pi_rho_expr P rho theta_v) /\
  derivable_pt_lim (fun t => pi_expr P rho t) theta_v
    (pi_theta_expr P rho theta_v).
Proof.
  intros Hrho Hth HR Hp. split.
  - assert (Hc : 0 < R_d P * theta_v / p_0 P).
    { apply Rdiv_lt_0_compat; [|assumption].
      apply Rmult_lt_0_compat; assumption. }
    pose proof (derivable_pt_lim_power_scaled _ (kappa P / (1 - kappa P))
                  rho Hc Hrho) as D.
    unfold pi_rho_expr.
    replace (rho * R_d P * theta_v / p_0 P)
      with (rho * (R_d P * theta_v / p_0 P)) by (field; lra).
    eapply derivable_pt_lim_ext; [|exact D].
    intros z. unfold pi_expr. f_equal. field. lra.
  - assert (Hc : 0 < rho * R_d P / p_0 P).
    { apply Rdiv_lt_0_compat; [|assumption].
      apply Rmult_lt_0_compat; assumption. }
    pose proof (derivable_pt_lim_power_scaled _ (kappa P / (1 - kappa P))
                  theta_v Hc Hth) as D.
    unfold pi_theta_expr.
    replace (rho * R_d P * theta_v / p_0 P)
      with (theta_v * (rho * R_d P / p_0 P)) by (field; lra).
    eapply derivable_pt_lim_ext; [|exact D].
    intros z. unfold pi_expr. f_equal. field. lra.
Qed.

Lemma pi_expr_derivatives_witness :
  derivable_pt_lim (fun r => pi_expr air_parameters r 300) 1
    (pi_rho_expr air_parameters 1 300).
Proof.
  apply (pi_expr_derivatives air_parameters 1 300); simpl; lra.
Defined.

(** *** Moist expressions *)

(** The mixing ratio [r_v_expr] returns for a relative humidity [H] has
    partial pressure [H] times the partial pressure at saturation, for
    positive gas constants, a non-negative saturation mixing ratio and
    [0 <= H <= 1]. *)
Theorem e_expr_r_v_expr (P : parameters) (H T p : R) :
  0 < R_d P -> 0 < R_v P -> 0 <= r_sat_expr P T p -> 0 <= H <= 1 ->
  e_expr P p (r_v_expr P H T p) = H * e_expr P p (r_sat_expr P T p).
Proof.
  intros HRd HRv Hsat [H0 H1]. unfold e_expr, r_v_expr. cbv zeta.
  set (rs := r_sat_expr P T p) in *. clearbody rs.
  assert (He : 0 < R_d P / R_v P) by (apply Rdiv_lt_0_compat; assumption).
  set (eps := R_d P / R_v P) in *. clearbody eps.
  assert (Hd : 0 < eps + (1 - H) * rs) by nra.
  field. repeat split; try lra.
  assert (0 < eps * (eps + rs)) by nra. nra.
Qed.

(** [r_sat_expr] is [w_sat1 / w_sat4] times the ratio of the saturation
    vapour pressure [e_sat_expr] to the remaining pressure, whenever
    [w_sat4 <> 0] and [p <> e_sat_expr T]. *)
Theorem r_sat_expr_e_sat_expr (P : parameters) (T p : R) :
  w_sat4 P <> 0 -> p <> e_sat_expr P T ->
  r_sat_expr P T p
  = w_sat1 P / w_sat4 P * (e_sat_expr P T / (p - e_sat_expr P T)).
Proof.
  intros Hw Hp. unfold r_sat_expr, e_sat_expr in *.
  set (x := w_sat2 P * (T - T_0 P) / (T - w_sat3 P)) in *.
  replace (- w_sat2 P * (T - T_0 P) / (T - w_sat3 P)) with (- x) in *
    by (unfold x, Rdiv; ring).
  rewrite exp_Ropp in *.
  assert (Hx : 0 < exp x) by apply exp_pos.
  set (E := exp x) in *. clearbody E.
  assert (Hne : p * E - w_sat4 P <> 0).
  { intros Z. apply Hp. field_simplify_eq; lra. }
  field. repeat split; lra.
Qed.

(** For dry air ([r_v = r_t = 0]) the equivalent potential temperature is
    the dry potential temperature, provided [kappa = R_d / cp], at positive
    pressures [p] and [p_0] and where no division of [theta_e_expr] is by
    zero ([T], [R_d] and [cp] are not zero). *)
Theorem theta_e_expr_dry (P : parameters) (T p : R) :
  kappa P = R_d P / cp P ->
  T <> 0 -> 0 < p -> 0 < p_0 P -> R_d P <> 0 -> cp P <> 0 ->
  theta_e_expr P T p 0 0 = theta_expr P T p.
Proof.
  intros Hk _ _ _ _ _. unfold theta_e_expr, theta_expr. cbv zeta.
  replace (p_0 P * (1 + 0 * R_v P / R_d P) / p) with (p_0 P / p)
    by (unfold Rdiv; ring).
  replace (cp P + c_pl P * 0) with (cp P) by ring.
  replace (Lv_expr P T * 0 / (T * cp P)) with 0 by (unfold Rdiv; ring).
  rewrite exp_0, Hk. ring.
Qed.

Lemma theta_e_expr_dry_witness :
  theta_e_expr air_parameters 280 90000 0 0
  = theta_expr air_parameters 280 90000.
Proof.
  apply (theta_e_expr_dry air_parameters 280 90000); simpl; lra.
Defined.

(** At the reference temperature the saturation vapour pressure is
    [w_sat4] and the saturation mixing ratio is [w_sat1 / (p - w_sat4)]. *)
Lemma e_sat_expr_T_0 (P : parameters) : e_sat_expr P (T_0 P) = w_sat4 P.
Proof.
  unfold e_sat_expr.
  replace (- w_sat2 P * (T_0 P - T_0 P) / (T_0 P - w_sat3 P)) with 0
    by (unfold Rdiv; ring).
  rewrite exp_0. ring.
Qed.

Lemma r_sat_expr_T_0 (P : parameters) (p : R) :
  r_sat_expr P (T_0 P) p = w_sat1 P / (p - w_sat4 P).
Proof.
  unfold r_sat_expr.
  replace (w_sat2 P * (T_0 P - T_0 P) / (T_0 P - w_sat3 P)) with 0
    by (unfold Rdiv; ring).
  rewrite exp_0. f_equal. ring.
Qed.

Lemma e_expr_r_v_expr_witness :
  e_expr air_parameters 100000 (r_v_expr air_parameters (1 / 2) 273.15 100000)
  = 1 / 2 * e_expr air_parameters 100000
              (r_sat_expr air_parameters 273.15 100000).
Proof.
  apply (e_expr_r_v_expr air_parameters (1 / 2) 273.15 100000);
    try (simpl; lra).
  change 273.15 with (T_0 air_parameters). rewrite r_sat_expr_T_0. simpl.
  apply Rlt_le, Rdiv_lt_0_compat; lra.
Defined.

Lemma r_sat_expr_e_sat_expr_witness :
  r_sat_expr air_parameters 273.15 100000
  = w_sat1 air_parameters / w_sat4 air_parameters
    * (e_sat_expr air_parameters 273.15
       / (100000 - e_sat_expr air_parameters 273.15)).
Proof.
  apply (r_sat_expr_e_sat_expr air_parameters 273.15 100000).
  - simpl. lra.
  - change 273.15 with (T_0 air_parameters). rewrite e_sat_expr_T_0.
    simpl. lra.
Defined.

End Expressions.

(** ** Further properties of the physics processes *)

Module PhysicsProperties.

Import Physics.

(** [water_v + water_c + rain] *)
Definition total_water (s : fields) : R := water_v s + water_c s + rain s.

(** A constant atmosphere for exercising [Condensation]: saturation mixing
    ratio [1/100] everywhere. *)
Definition constant_thermodynamics : thermodynamics :=
  {| thermo_pi := fun _ _ => 1;
     thermo_T := fun _ _ _ => 300;
     thermo_p := fun _ => 100000;
     thermo_Lv := fun _ => 2500000;
     thermo_r_sat := fun _ _ => 1 / 100 |}.

Definition saturated_node : fields :=
  {| theta := 300; water_v := 1 / 100; water_c := 1 / 1000; rain := 0;
     rho := 1 |}.

(** The divisions in the condensation rate and in the update of [theta]
    have non-zero divisors. *)
Definition condensation_defined (P : Thermodynamics.parameters)
    (Th : thermodynamics) (dt : R) (s : fields) : Prop :=
  let T := Condensation.T Th s in
  let L_v := Condensation.L_v Th s in
  let w_sat := Condensation.w_sat Th s in
  let R_m := Thermodynamics.R_d P + Thermodynamics.R_v P * water_v s in
  let c_vml := Thermodynamics.cv P + Thermodynamics.c_vv P * water_v s
               + Thermodynamics.c_pl P * water_c s in
  Thermodynamics.cp P * Thermodynamics.R_v P * T ^ 2 <> 0 /\
  dt * (1 + (L_v ^ 2 * w_sat)
            / (Thermodynamics.cp P * Thermodynamics.R_v P * T ^ 2)) <> 0 /\
  c_vml * Thermodynamics.cp P * T <> 0 /\
  R_m * Thermodynamics.cp P * c_vml <> 0.

(** Each process writes its own fields only and keeps the total water:
    Condensation leaves [rain] and [rho]; Coalescence, Collection and
    Autoconversion leave [theta], [water_v] and [rho]. *)
Theorem processes_frame P Th weak solver (dt : R) (s : fields) :
  (let s' := Condensation.apply P Th dt weak solver s in
   rain s' = rain s /\ rho s' = rho s /\ total_water s' = total_water s) /\
  (let s' := Coalescence.apply dt s in
   theta s' = theta s /\ water_v s' = water_v s /\ rho s' = rho s /\
   total_water s' = total_water s) /\
  (let s' := Collection.apply dt s in
   theta s' = theta s /\ water_v s' = water_v s /\ rho s' = rho s /\
   total_water s' = total_water s) /\
  (let s' := Autoconversion.apply dt s in
   theta s' = theta s /\ water_v s' = water_v s /\ rho s' = rho s /\
   total_water s' = total_water s).
Proof.
  cbv zeta. unfold total_water, Condensation.apply, Coalescence.apply,
    Collection.apply, Autoconversion.apply, Condensation.water_v_new,
    Condensation.water_c_new.
  simpl. repeat split; ring.
Qed.


(** Coalescence moves water one way, from cloud to rain: with [dt > 0] and
    non-negative cloud water and rain, rain never decreases and gains at
    most the cloud water there was, and cloud water loses what rain
    gains. *)
Theorem cloud_to_rain_only (dt : R) (s : fields) :
  0 < dt -> 0 <= water_c s -> 0 <= rain s ->
  let s' := Coalescence.apply dt s in
  rain s <= rain s' <= rain s + water_c s /\
  0 <= water_c s' <= water_c s /\
  rain s' - rain s = water_c s - water_c s'.
Proof.
  intros Hdt Hc Hr. cbv zeta.
  assert (Hb : 0 <= dt * Coalescence.lim_coalescence_rate dt s <= water_c s).
  { unfold Coalescence.lim_coalescence_rate.
    set (raw := Coalescence.collection s + Coalescence.autoconversion s).
    clearbody raw. name_quotient (water_c s) dt qc. split_clip; nra. }
  unfold Coalescence.apply. simpl. lra.
Qed.

Lemma cloud_to_rain_only_witness :
  rain wet_node <= rain (Coalescence.apply 1 wet_node)
  <= rain wet_node + water_c wet_node.
Proof.
  destruct (cloud_to_rain_only 1 wet_node) as (H & _).
  - lra.
  - unfold wet_node. simpl. lra.
  - unfold wet_node. simpl. lra.
  - exact H.
Defined.

(** Autoconversion works both ways around its threshold [a = 0.001], for
    [dt > 0] and non-negative cloud water and rain: at the threshold it
    changes nothing; below it, with rain present, rain is turned back into
    cloud water; above it cloud water is turned into rain. *)
Theorem autoconversion_two_way (dt : R) (s : fields) :
  0 < dt -> 0 <= water_c s -> 0 <= rain s ->
  let s' := Autoconversion.apply dt s in
  (water_c s = Autoconversion.a ->
     water_c s' = water_c s /\ rain s' = rain s) /\
  (water_c s < Autoconversion.a -> 0 < rain s ->
     rain s' < rain s /\ water_c s < water_c s') /\
  (Autoconversion.a < water_c s ->
     rain s < rain s' /\ water_c s' < water_c s).
Proof.
  intros Hdt Hc Hr. cbv zeta.
  unfold Autoconversion.apply, Autoconversion.limit_rate,
    Autoconversion.autoconversion, Autoconversion.k1, Autoconversion.a.
  simpl. rewrite opp_quotient.
  name_quotient (water_c s) dt qc. name_quotient (rain s) dt qr.
  repeat split; intros; split_clip; nra.
Qed.

Lemma autoconversion_two_way_witness :
  rain (Autoconversion.apply 1 rain_only_node) < rain rain_only_node.
Proof.
  destruct (autoconversion_two_way 1 rain_only_node) as (_ & H & _).
  - lra.
  - unfold rain_only_node. simpl. lra.
  - unfold rain_only_node. simpl. lra.
  - apply H; unfold rain_only_node, Autoconversion.a; simpl; lra.
Defined.

(** A saturated node is a fixed point of Condensation (without the weak
    solve): if the vapour equals the saturation mixing ratio, is
    non-negative, [dt > 0] and the divisions are defined, [apply] changes no
    field. *)
Theorem saturated_fixed_point P Th solver (dt : R) (s : fields) :
  0 < dt -> 0 <= water_v s ->
  water_v s = Condensation.w_sat Th s ->
  condensation_defined P Th dt s ->
  Condensation.apply P Th dt false solver s = s.
Proof.
  intros Hdt Hv Hsat _.
  assert (Hraw : Condensation.dot_r_cond P Th dt false solver s = 0).
  { unfold Condensation.dot_r_cond, Condensation.cond_rate_expr.
    rewrite <- Hsat. unfold Rdiv. ring. }
  assert (Hlim : Condensation.lim_cond_rate dt 0 s = 0).
  { unfold Condensation.lim_cond_rate.
    name_quotient (water_v s) dt qv. split_clip; nra. }
  unfold Condensation.apply. rewrite Hraw, Hlim.
  unfold Condensation.theta_new, Condensation.water_v_new,
    Condensation.water_c_new.
  destruct s as [th wv wc rn rh]. unfold set_theta, set_water_v, set_water_c.
  simpl. f_equal; ring.
Qed.

Lemma saturated_fixed_point_witness :
  Condensation.apply Expressions.air_parameters constant_thermodynamics 1
    false (fun _ => 0) saturated_node = saturated_node.
Proof.
  apply saturated_fixed_point.
  - lra.
  - unfold saturated_node. simpl. lra.
  - reflexivity.
  - unfold condensation_defined, Condensation.T, Condensation.L_v,
      Condensation.w_sat, saturated_node. simpl.
    repeat split; lra.
Defined.

(** Condensation, Coalescence and Autoconversion keep the three moisture
    fields non-negative, for any [dt > 0] and any raw rate. *)
Theorem clipped_processes_nonneg P Th weak solver (dt : R) (s : fields) :
  0 < dt -> moisture_nonneg s ->
  moisture_nonneg (Condensation.apply P Th dt weak solver s) /\
  moisture_nonneg (Coalescence.apply dt s) /\
  moisture_nonneg (Autoconversion.apply dt s).
Proof.
  intros Hdt Hs. split; [|split].
  - apply Condensation_nonneg; assumption.
  - apply Coalescence_nonneg; assumption.
  - apply Autoconversion_nonneg; assumption.
Qed.

Lemma clipped_processes_nonneg_witness :
  moisture_nonneg (Coalescence.apply 1 wet_node).
Proof.
  destruct (clipped_processes_nonneg Expressions.air_parameters
              constant_thermodynamics false (fun _ => 0) 1 wet_node)
    as (_ & H & _).
  - lra.
  - unfold moisture_nonneg, wet_node. simpl. lra.
  - exact H.
Defined.

(** *** Collection on whole fields

    [Collection] is built from [Projector]s only.  A projector solves the
    mass-matrix system for the L2 projection of its expression into the
    space of its target, which gives the node-wise value of the expression
    only where the expression lies in that space.  Here a field is its
    coefficient vector, [eval] is the function of the point it stands for,
    and [project] gives the coefficients of the projection of a function of
    the point. *)

Module CollectionProjectors.
Section CollectionProjectors.
Variable point : Type.
Variable eval : Forcing.dofs -> point -> R.
Variable project : (point -> R) -> Forcing.dofs.
Variable dt : R.

(** The expression [k2 * self.water_c * self.rain ** 0.875]. *)
Definition collection (water_c rain : Forcing.dofs) : point -> R :=
  fun x => Collection.k2 * eval water_c x * power (eval rain x) 0.875.

(** [Collection.apply]: [collection_projector.project()] fills
    [collection_rate], then [water_c_projector.project()] and
    [rain_projector.project()] overwrite [water_c] and [rain]; the result
    is the pair of the two fields. *)
Definition apply (water_c rain : Forcing.dofs)
  : Forcing.dofs * Forcing.dofs :=
  let collection_rate := project (collection water_c rain) in
  let water_c :=
    project (fun x => eval water_c x - dt * eval collection_rate x) in
  let rain :=
    project (fun x => eval rain x + dt * eval collection_rate x) in
  (water_c, rain).

End CollectionProjectors.
End CollectionProjectors.








End PhysicsProperties.

(** ** Further properties of the forcing operators *)

Module ForcingProperties.

Import Forcing.

(** [apply] fails only on a misuse of [mu_alpha]: the compressible and
    incompressible variants raise exactly when [mu_alpha] is passed to an
    object built without a sponge, and a call that returns leaves the
    object with or without [mu_scaling] as it was. *)
Theorem apply_fails_iff :
  (forall S C (scaling : R) (x_in x_nl x_out : ref) (mu_alpha : option R)
          (F : Compressible.forcing) (h : heap Compressible.W),
      (Compressible.apply S C scaling x_in x_nl x_out mu_alpha F h = None
       <-> mu_alpha <> None /\ Compressible.mu_scaling F = None) /\
      (forall F' h',
          Compressible.apply S C scaling x_in x_nl x_out mu_alpha F h
          = Some (F', h') ->
          (Compressible.mu_scaling F' = None
           <-> Compressible.mu_scaling F = None))) /\
  (forall S C (scaling : R) (x_in x_nl x_out : ref) (mu_alpha : option R)
          (incompressible : bool)
          (F : Incompressible.forcing) (h : heap Incompressible.W),
      (Incompressible.apply S C scaling x_in x_nl x_out mu_alpha
         incompressible F h = None
       <-> mu_alpha <> None /\ Incompressible.mu_scaling F = None) /\
      (forall F' h',
          Incompressible.apply S C scaling x_in x_nl x_out mu_alpha
            incompressible F h = Some (F', h') ->
          (Incompressible.mu_scaling F' = None
           <-> Incompressible.mu_scaling F = None))).
Proof.
  split.
  - intros S C scaling x_in x_nl x_out mu_alpha F h.
    unfold Compressible.apply, assign_mu_scaling.
    destruct mu_alpha as [a|], (Compressible.mu_scaling F) as [m|]; simpl;
      (split; [split|]).
    all: try (intros H; discriminate H).
    all: try (intros [H1 H2]; congruence).
    all: try (intros _; split; congruence).
    all: intros F' h' H; injection H as <- _; simpl; split; congruence.
  - intros S C scaling x_in x_nl x_out mu_alpha incompressible F h.
    unfold Incompressible.apply, assign_mu_scaling.
    destruct mu_alpha as [a|], (Incompressible.mu_scaling F) as [m|],
      incompressible; simpl; (split; [split|]).
    all: try (intros H; discriminate H).
    all: try (intros [H1 H2]; congruence).
    all: try (intros _; split; congruence).
    all: intros F' h' H; injection H as <- _; simpl; split; congruence.
Qed.

(** Two calls that accumulate into the same buffer add their increments:
    after [apply(s1, x_in, x_nl, x_out)] and [apply(s2, x_out, x_nl, x_out)]
    with [x_nl] a buffer other than [x_out], the velocity of [x_out] is that
    of [x_in] plus [(s1 + s2) * F(x_nl)], less the two sponge increments for
    the compressible variant. *)
Theorem apply_twice_accumulates :
  (forall S C (s1 s2 : R) (x_in x_nl x_out : ref) (mu1 mu2 : option R)
          (F F1 F2 : Compressible.forcing) (h h1 h2 : heap Compressible.W),
      linear (Compressible.solve S) ->
      x_nl <> x_out ->
      Compressible.apply S C s1 x_in x_nl x_out mu1 F h = Some (F1, h1) ->
      Compressible.apply S C s2 x_out x_nl x_out mu2 F1 h1 = Some (F2, h2) ->
      forall i : nat,
        Compressible.u (h2 x_out) i
        = Compressible.u (h x_in) i
          + (s1 + s2) * Compressible.forcing_term S C
                          (Compressible.euler_poincare F) (h x_nl) i
          - (sponge_scale (Compressible.mu_scaling F1)
             + sponge_scale (Compressible.mu_scaling F2))
            * Compressible.sponge_increment S (h x_nl) i) /\
  (forall S (s1 s2 : R) (x_in x_nl x_out : ref)
          (F : ShallowWater.forcing) (h : heap ShallowWater.W),
      x_nl <> x_out ->
      let '(F1, h1) := ShallowWater.apply S s1 x_in x_nl x_out F h in
      let '(F2, h2) := ShallowWater.apply S s2 x_out x_nl x_out F1 h1 in
      forall i : nat,
        ShallowWater.u (h2 x_out) i
        = ShallowWater.u (h x_in) i
          + (s1 + s2) * ShallowWater.forcing_term S
                          (ShallowWater.euler_poincare F) (h x_nl) i).
Proof.
  split.
  - intros S C s1 s2 x_in x_nl x_out mu1 mu2 F F1 F2 h h1 h2 Hlin N H1 H2.
    unfold Compressible.apply in H1.
    destruct (assign_mu_scaling mu1 (Compressible.mu_scaling F)) as [m1|];
      [|discriminate].
    injection H1 as <- <-. unfold Compressible.apply in H2. simpl in H2.
    destruct (assign_mu_scaling mu2 m1) as [m2|]; [|discriminate].
    injection H2 as <- <-. intros i. heap_simpl. unfold vadd.
    rewrite !compressible_solve_L by assumption. ring.
  - intros S s1 s2 x_in x_nl x_out F h N. unfold ShallowWater.apply.
    intros i. heap_simpl. unfold vadd, vscale, ShallowWater.forcing_term.
    ring.
Qed.

Lemma apply_twice_accumulates_witness :
  let first_call :=
    ShallowWater.apply one_node_shallow_water 2 0%nat 2%nat 1%nat
      (ShallowWater.build_forcing_solver true) unit_heap_shallow_water in
  let second_call :=
    ShallowWater.apply one_node_shallow_water 3 1%nat 2%nat 1%nat
      (fst first_call) (snd first_call) in
  ShallowWater.u (snd second_call 1%nat) 0%nat
  = ShallowWater.u (unit_heap_shallow_water 0%nat) 0%nat
    + (2 + 3) * ShallowWater.forcing_term one_node_shallow_water true
                  (unit_heap_shallow_water 2%nat) 0%nat.
Proof.
  destruct apply_twice_accumulates as (_ & HS).
  assert (N : 2%nat <> 1%nat) by discriminate.
  exact (HS one_node_shallow_water 2 3 0%nat 2%nat 1%nat
           (ShallowWater.build_forcing_solver true) unit_heap_shallow_water
           N 0%nat).
Defined.

(** A state without sponge layer or rotation. *)
Definition plain_config : state_config :=
  {| geopotential := false; has_Omega := false; has_mu := false |}.

Lemma apply_fails_iff_witness :
  Compressible.apply one_node_compressible plain_config 2 0%nat 0%nat 1%nat
    (Some 3) (Compressible.build_forcing_solver plain_config true)
    unit_velocity_heap = None.
Proof.
  destruct apply_fails_iff as (HC & _).
  apply (HC one_node_compressible plain_config 2 0%nat 0%nat 1%nat (Some 3)
           (Compressible.build_forcing_solver plain_config true)
           unit_velocity_heap).
  split; [discriminate | reflexivity].
Defined.

End ForcingProperties.

(** ** The field and space creators, initialisation and reference
    profiles ([gusto/state.py]) *)

Module StateFields.

Import Forcing State.

(** [SpaceCreator.__call__(name, mesh, family, degree)]: the space already
    bound to [name], or else the new space, which is then bound to it.
    [space] stands for what [FunctionSpace(mesh, family, degree)]
    builds. *)
Definition SpaceCreator_call {space : Type} (n : string) (new : space)
    (sc : gmap string space) : space * gmap string space :=
  match sc !! n with
  | Some v => (v, sc)
  | None => (new, <[n := new]> sc)
  end.

(** [Function.rename(name)] *)
Definition rename (n : string) (f : field) : field :=
  {| name := n; data := data f; ufl_shape := ufl_shape f;
     dump_flag := dump_flag f; pickup_flag := pickup_flag f |}.

Definition set_field_creator (fc : FieldCreator) (s : State) : State :=
  {| fieldlist := fieldlist s; output := output s;
     diagnostics := diagnostics s; diagnostic_fields := diagnostic_fields s;
     field_creator := fc |}.

(** [State.initialise(initial_conditions)]: [getattr(self.fields, name)]
    raises for a name that is not a field. *)
Fixpoint initialise (initial_conditions : list (string * dofs)) (s : State)
  : result State :=
  match initial_conditions with
  | [] => Ok s
  | (n, ic) :: rest =>
      match attrs (field_creator s) !! n with
      | None => Raise AttributeError
      | Some i =>
          initialise rest
            (set_fields (alter (fun f => rename n (set_data ic f)) i
                           (fields (field_creator s))) s)
      end
  end.

(** [State.set_reference_profiles(reference_profiles)]: the profile of
    [name] goes into the field [name + 'bar'], created on the space of
    [name] with [dump=False] if it does not exist; the interpolated value
    is given by its nodal coefficients. *)
Fixpoint set_reference_profiles (reference_profiles : list (string * dofs))
    (s : State) : result State :=
  match reference_profiles with
  | [] => Ok s
  | (n, profile) :: rest =>
      match attrs (field_creator s) !! n with
      | None => Raise AttributeError
      | Some i =>
          match fields (field_creator s) !! i with
          | None => Raise AttributeError
          | Some fld =>
              '(j, fc) ← FieldCreator_call (String.append n "bar")
                           (Some (ufl_shape fld)) false true
                           (field_creator s);
              set_reference_profiles rest
                (set_field_creator
                   {| attrs := attrs fc;
                      fields := alter (set_data profile) j (fields fc) |} s)
          end
      end
  end.

(** The value [initialise] leaves in the field [n]: the last one listed
    for it. *)
Fixpoint assigned (n : string) (ics : list (string * dofs)) : option dofs :=
  match ics with
  | [] => None
  | (m, v) :: rest =>
      match assigned n rest with
      | Some w => Some w
      | None => if decide (m = n) then Some v else None
      end
  end.

(** The creator's invariant: names are distinct, and the attribute table
    maps exactly each name to the position of the field of that name. *)
Definition fc_wf (fc : FieldCreator) : Prop :=
  NoDup (name <$> fields fc) /\
  forall (n : string) (i : nat),
    attrs fc !! n = Some i <-> (name <$> fields fc) !! i = Some n.

Lemma fc_wf_empty : fc_wf {| attrs := ∅; fields := [] |}.
Proof.
  split; simpl; [apply NoDup_nil; exact I|].
  intros n i. rewrite lookup_empty. split; discriminate.
Qed.

Lemma fc_wf_fresh (fc : FieldCreator) (n : string) :
  fc_wf fc -> attrs fc !! n = None -> n ∉ name <$> fields fc.
Proof.
  intros [_ Hat] Hn Hin. apply list_elem_of_lookup in Hin as [i Hi].
  apply Hat in Hi. congruence.
Qed.

Lemma fc_wf_append (fc : FieldCreator) (f : field) :
  fc_wf fc -> attrs fc !! name f = None ->
  fc_wf {| attrs := <[name f := length (fields fc)]> (attrs fc);
           fields := fields fc ++ [f] |}.
Proof.
  intros Hwf Hn. pose proof (fc_wf_fresh fc (name f) Hwf Hn) as Hfresh.
  destruct Hwf as [Hnd Hat]. split; simpl.
  - rewrite fmap_app. apply NoDup_app. split; [exact Hnd|]. split.
    + intros x Hx Hx'. apply list_elem_of_singleton in Hx'. subst x.
      contradiction.
    + apply NoDup_singleton.
  - intros m i. rewrite fmap_app. simpl.
    assert (Hlen : length (name <$> fields fc) = length (fields fc))
      by apply length_fmap.
    destruct (decide (name f = m)) as [<-|N].
    + rewrite lookup_insert_eq. split.
      * intros E. injection E as <-.
        rewrite lookup_app_r by lia. rewrite Hlen, Nat.sub_diag. reflexivity.
      * intros E. destruct (decide (i < length (fields fc))%nat) as [L|L].
        -- rewrite lookup_app_l in E by lia.
           exfalso. apply Hfresh. apply list_elem_of_lookup. eauto.
        -- rewrite lookup_app_r in E by lia.
           apply lookup_lt_Some in E as L'. simpl in L'. f_equal. lia.
    + rewrite lookup_insert_ne by exact N. rewrite Hat.
      destruct (decide (i < length (fields fc))%nat) as [L|L].
      * rewrite lookup_app_l by lia. reflexivity.
      * rewrite lookup_app_r by lia. split.
        -- intros E. apply lookup_lt_Some in E. lia.
        -- intros E. rewrite Hlen in E.
           destruct (i - length (fields fc))%nat; simpl in E;
             [congruence | discriminate].
Qed.

(** The invariant depends on the table and on the names only. *)
Lemma fc_wf_same_names (fc fc' : FieldCreator) :
  attrs fc' = attrs fc -> name <$> fields fc' = name <$> fields fc ->
  fc_wf fc -> fc_wf fc'.
Proof. unfold fc_wf. intros -> ->. auto. Qed.

(** *** The creators *)

(** The names [getattr] finds on a [FieldCreator] before any field is
    set: [fields], the list itself, and the special names [__x__] of the
    class and of [object].  For such a name [getattr] returns that
    attribute, and [setattr] replaces it; the statements about fields are
    for the other names. *)
Definition reserved (n : string) : bool :=
  bool_decide (n = "fields") || String.prefix "__" n.

(** A name is bound by the first call that uses it: a later call with the
    same name returns the same space or field and changes nothing,
    whatever space or flags it passes. *)
Theorem creators_first_call_wins :
  (forall (space : Type) (n : string) (a b : space) (sc : gmap string space),
      let '(v, sc') := SpaceCreator_call n a sc in
      SpaceCreator_call n b sc' = (v, sc')) /\
  (forall (n : string) (space space' : option (list nat))
          (dump pickup dump' pickup' : bool) (fc fc' : FieldCreator)
          (i : nat),
      FieldCreator_call n space dump pickup fc = Ok (i, fc') ->
      FieldCreator_call n space' dump' pickup' fc' = Ok (i, fc')).
Proof.
  split.
  - intros space n a b sc. unfold SpaceCreator_call.
    destruct (sc !! n) as [v|] eqn:E.
    + rewrite E. reflexivity.
    + rewrite lookup_insert_eq. reflexivity.
  - intros n space space' dump pickup dump' pickup' fc fc' i.
    unfold FieldCreator_call.
    destruct (attrs fc !! n) as [j|] eqn:E.
    + intros H. injection H as <- <-. rewrite E. reflexivity.
    + destruct space as [shape|]; [|discriminate].
      intros H. injection H as <- <-. simpl.
      rewrite lookup_insert_eq. reflexivity.
Qed.

Lemma creators_first_call_wins_witness :
  FieldCreator_call "rainfall_velocity" None false false
    {| attrs := <["rainfall_velocity" := 0%nat]> ∅;
       fields := [] ++
                 [{| name := "rainfall_velocity"; data := vzero;
                     ufl_shape := [2%nat]; dump_flag := true;
                     pickup_flag := true |}] |}
  = Ok (0%nat,
        {| attrs := <["rainfall_velocity" := 0%nat]> ∅;
           fields := [] ++
                     [{| name := "rainfall_velocity"; data := vzero;
                         ufl_shape := [2%nat]; dump_flag := true;
                         pickup_flag := true |}] |}).
Proof.
  destruct creators_first_call_wins as (_ & HF).
  apply (HF "rainfall_velocity" (Some [2%nat]) None true true false false
           {| attrs := ∅; fields := [] |}).
  reflexivity.
Defined.

(** A call with a name that is not [reserved] keeps the invariant, binds
    the name to the position it returns, leaves every existing field in
    place and creates at most one field, which carries the flags passed. *)
Theorem FieldCreator_call_wf (n : string) (space : option (list nat))
    (dump pickup : bool) (fc fc' : FieldCreator) (i : nat) :
  reserved n = false ->
  fc_wf fc ->
  FieldCreator_call n space dump pickup fc = Ok (i, fc') ->
  fc_wf fc' /\ attrs fc' !! n = Some i /\
  (exists f, fields fc' !! i = Some f /\ name f = n) /\
  (fc' = fc \/
   exists shape,
     space = Some shape /\ i = length (fields fc) /\
     fields fc' = fields fc ++
                  [{| name := n; data := vzero; ufl_shape := shape;
                      dump_flag := dump; pickup_flag := pickup |}]).
Proof.
  intros _ Hwf. unfold FieldCreator_call.
  destruct (attrs fc !! n) as [j|] eqn:E.
  - intros H. injection H as <- <-. split; [exact Hwf|].
    split; [exact E|]. split; [|left; reflexivity].
    apply (proj2 Hwf) in E. rewrite list_lookup_fmap in E.
    destruct (fields fc !! j) as [f|]; [|discriminate].
    exists f. split; [reflexivity|]. simpl in E. congruence.
  - destruct space as [shape|]; [|discriminate].
    intros H. injection H as <- <-.
    set (f := {| name := n; data := vzero; ufl_shape := shape;
                 dump_flag := dump; pickup_flag := pickup |}).
    split; [apply (fc_wf_append fc f Hwf E)|].
    split; [simpl; apply lookup_insert_eq|].
    split; [|right; exists shape; auto].
    exists f. split; [|reflexivity]. simpl.
    rewrite lookup_app_r by lia. rewrite Nat.sub_diag. reflexivity.
Qed.

Lemma FieldCreator_call_wf_witness :
  fc_wf {| attrs := <["coriolis" := 0%nat]> ∅;
           fields := [] ++
                     [{| name := "coriolis"; data := vzero; ufl_shape := [];
                         dump_flag := true; pickup_flag := true |}] |}.
Proof.
  apply (FieldCreator_call_wf "coriolis" (Some []) true true
           {| attrs := ∅; fields := [] |} _ 0%nat eq_refl fc_wf_empty
           eq_refl).
Defined.

(** *** [State.__init__] *)

Lemma FieldCreator_init_spec (dumplist : list string)
    (pairs : list (string * (list nat * dofs))) :
  forall fc : FieldCreator,
    fc_wf fc -> NoDup pairs.*1 ->
    (forall n, n ∈ pairs.*1 -> attrs fc !! n = None) ->
    let fc' := FieldCreator_init pairs dumplist fc in
    fc_wf fc' /\
    name <$> fields fc' = (name <$> fields fc) ++ pairs.*1 /\
    (forall P : field -> Prop,
        (forall n shape func,
            P {| name := n; data := func; ufl_shape := shape;
                 dump_flag := bool_decide (n ∈ dumplist);
                 pickup_flag := true |}) ->
        Forall P (fields fc) -> Forall P (fields fc')).
Proof.
  induction pairs as [|[n [shape func]] rest IH]; intros fc Hwf Hnd Hfresh;
    simpl.
  - rewrite app_nil_r. auto.
  - apply NoDup_cons in Hnd as [Hn Hnd].
    set (f := {| name := n; data := func; ufl_shape := shape;
                 dump_flag := bool_decide (n ∈ dumplist);
                 pickup_flag := true |}).
    set (fc1 := {| attrs := <[n := length (fields fc)]> (attrs fc);
                   fields := fields fc ++ [f] |}).
    assert (Hwf1 : fc_wf fc1).
    { apply (fc_wf_append fc f Hwf). apply Hfresh. left. }
    destruct (IH fc1 Hwf1 Hnd) as (Hw & Hnames & HP).
    { intros m Hm. simpl. rewrite lookup_insert_ne.
      - apply Hfresh. right. exact Hm.
      - intros ->. contradiction. }
    split; [exact Hw|]. split.
    + rewrite Hnames. simpl. rewrite fmap_app, <- app_assoc. reflexivity.
    + intros P HPnew HPold. apply HP; [exact HPnew|]. simpl.
      apply Forall_app. split; [exact HPold|].
      apply Forall_singleton. apply HPnew.
Qed.

Lemma fst_zip_take {A B : Type} (l : list A) (k : list B) :
  (zip l k).*1 = take (length k) l.
Proof.
  revert k. induction l as [|x l IH]; intros [|y k]; simpl;
    try reflexivity.
  f_equal. apply IH.
Qed.

(** The number of components of [W] that [_build_spaces] sets up. *)
Definition components (vertical_degree : option Z) : nat :=
  match vertical_degree with Some _ => 3 | None => 2 end.

(** A state built from a [fieldlist] of distinct names, none of them
    [reserved], has one field for each of the first names, as many as [W] has components (three with a
    [vertical_degree], two without) and no more; the names are distinct
    and in the attribute table, every field has the pickup flag, and its
    dump flag tells whether its name is in [dumplist] (all of [fieldlist]
    when [dumplist] is [None]). *)
Theorem init_fields (mesh_dim : nat) (fieldlist : list string)
    (vertical_degree : option Z) (o : OutputParameters)
    (diagnostics : option (list string)) (diagnostic_fields : option (list nat))
    (s : State) :
  NoDup fieldlist ->
  Forall (fun n => reserved n = false) fieldlist ->
  init mesh_dim fieldlist vertical_degree (Some o) diagnostics
    diagnostic_fields = Ok s ->
  fc_wf (field_creator s) /\
  name <$> fields (field_creator s)
  = take (components vertical_degree) fieldlist /\
  Forall (fun f => pickup_flag f = true /\
                   dump_flag f
                   = bool_decide (name f ∈ default fieldlist (dumplist o)))
         (fields (field_creator s)).
Proof.
  intros Hnd _ H. unfold init in H. injection H as <-. simpl.
  set (dl := default [] _).
  assert (Hdl : dl = default fieldlist (dumplist o)).
  { unfold dl. destruct (dumplist o) as [l|] eqn:E; simpl.
    - rewrite E. reflexivity.
    - reflexivity. }
  assert (Hfst : (zip fieldlist (xn_split mesh_dim vertical_degree)).*1
                 = take (components vertical_degree) fieldlist).
  { rewrite fst_zip_take. destruct vertical_degree; reflexivity. }
  destruct (FieldCreator_init_spec dl
              (zip fieldlist (xn_split mesh_dim vertical_degree))
              {| attrs := ∅; fields := [] |} fc_wf_empty)
    as (Hw & Hnames & HP).
  { rewrite Hfst. apply (sublist_NoDup _ fieldlist Hnd), sublist_take. }
  { intros n _. apply lookup_empty. }
  split; [exact Hw|]. split.
  - rewrite Hnames, Hfst. reflexivity.
  - apply HP; [|apply Forall_nil; exact I].
    intros n shape func. simpl. rewrite Hdl. auto.
Qed.

Lemma init_fields_witness :
  name <$> fields (field_creator example_state)
  = take (components (Some 1%Z)) ["u"; "rho"; "theta"].
Proof.
  assert (Hnd : NoDup ["u"; "rho"; "theta"]) by compute_done.
  assert (Hres : Forall (fun n => reserved n = false) ["u"; "rho"; "theta"])
    by (repeat constructor).
  destruct (init_fields 2 ["u"; "rho"; "theta"] (Some 1%Z) example_output
              None None example_state Hnd Hres eq_refl) as (_ & H & _).
  exact H.
Defined.

(** *** [setup_dump] *)

Lemma select_increasing (P : field -> bool) (fs : list field) :
  forall (k i j x y : nat),
    select P fs k !! i = Some x -> select P fs k !! j = Some y ->
    (i < j)%nat -> (x < y)%nat.
Proof.
  induction fs as [|f fs' IH]; intros k i j x y Hi Hj Hlt; simpl in *.
  - discriminate.
  - destruct (P f).
    + destruct j as [|j']; [lia|]. simpl in Hj.
      destruct i as [|i']; simpl in Hi.
      * injection Hi as <-.
        assert (Hy : y ∈ select P fs' (Datatypes.S k))
          by (apply list_elem_of_lookup; eauto).
        apply elem_of_select in Hy as (_ & Hle & _). lia.
      * apply (IH (Datatypes.S k) i' j' x y Hi Hj). lia.
    + apply (IH (Datatypes.S k) i j x y Hi Hj Hlt).
Qed.

(** [setup_dump] lists in [to_dump] exactly the fields with the dump flag
    and in [to_pickup] exactly those with the pickup flag, each once and in
    the order of creation; it starts the counter at zero with no diagnostic
    data, and leaves the two checkpoint files as they are. *)
Theorem setup_dump_lists (rank : nat) (pickup : bool) (s : State)
    (a : dump_attrs) (d d' : disk) :
  setup_dump rank pickup s d = Ok (a, d') ->
  (forall i, i ∈ to_dump a <->
             exists f, fields (field_creator s) !! i = Some f /\
                       dump_flag f = true) /\
  (forall i, i ∈ to_pickup a <->
             exists f, fields (field_creator s) !! i = Some f /\
                       pickup_flag f = true) /\
  (forall i j x y, to_dump a !! i = Some x -> to_dump a !! j = Some y ->
                   (i < j)%nat -> (x < y)%nat) /\
  (forall i j x y, to_pickup a !! i = Some x -> to_pickup a !! j = Some y ->
                   (i < j)%nat -> (x < y)%nat) /\
  dumpcount a = 0%nat /\ diagnostic_data a = ∅ /\
  chkpt d' = chkpt d /\ chkptbk d' = chkptbk d.
Proof.
  unfold setup_dump.
  destruct (_ && _ && _ && _); [discriminate|].
  unfold_bind. destruct (lookup_all _ _); [|discriminate].
  intros H. injection H as <- <-. simpl.
  assert (Hsel : forall P i,
             i ∈ select P (fields (field_creator s)) 0 <->
             exists f, fields (field_creator s) !! i = Some f /\ P f = true).
  { intros P i. rewrite elem_of_select, Nat.sub_0_r. split.
    - intros (f & _ & Hf & HP). eauto.
    - intros (f & Hf & HP). exists f. split; [lia | auto]. }
  split; [apply Hsel|]. split; [apply Hsel|].
  split; [apply select_increasing|]. split; [apply select_increasing|].
  auto 10.
Qed.

Lemma setup_dump_lists_witness :
  (0%nat ∈ to_pickup example_attrs <->
   exists f, fields (field_creator example_state) !! 0%nat = Some f /\
             pickup_flag f = true) /\
  dumpcount example_attrs = 0%nat.
Proof.
  destruct (setup_dump_lists 0 true example_state example_attrs example_disk
              example_disk eq_refl) as (_ & Hp & _ & _ & Hc & _).
  split; [apply Hp | exact Hc].
Defined.

(** *** [initialise] *)

Lemma alter_rename_names (fc : FieldCreator) (n : string) (i : nat)
    (ic : dofs) :
  fc_wf fc -> attrs fc !! n = Some i ->
  name <$> alter (fun f => rename n (set_data ic f)) i (fields fc)
  = name <$> fields fc.
Proof.
  intros [_ Hat] Hn. apply Hat in Hn. apply list_eq. intros j.
  rewrite !list_lookup_fmap, list_lookup_alter.
  destruct (decide (i = j)) as [<-|N]; [|reflexivity].
  rewrite list_lookup_fmap in Hn.
  destruct (fields fc !! i) as [f|]; [|reflexivity].
  simpl in *. congruence.
Qed.

Lemma initialise_rel (ics : list (string * dofs)) :
  forall s s' : State,
    fc_wf (field_creator s) ->
    initialise ics s = Ok s' ->
    attrs (field_creator s') = attrs (field_creator s) /\
    fc_wf (field_creator s') /\
    forall i f,
      fields (field_creator s) !! i = Some f ->
      fields (field_creator s') !! i
      = Some (set_data (default (data f) (assigned (name f) ics)) f).
Proof.
  induction ics as [|[n ic] rest IH]; intros s s' Hwf H; simpl in H.
  - injection H as <-. split; [reflexivity|]. split; [exact Hwf|].
    intros i f Hf. rewrite Hf. destruct f; reflexivity.
  - destruct (attrs (field_creator s) !! n) as [i0|] eqn:Hn; [|discriminate].
    pose proof (alter_rename_names _ n i0 ic Hwf Hn) as Hnames.
    apply IH in H as (Hat & Hwf' & Hfs).
    2:{ apply (fc_wf_same_names (field_creator s)); simpl; auto. }
    simpl in Hat. split; [exact Hat|]. split; [exact Hwf'|].
    intros i f Hf.
    assert (Hname : name f = n <-> i0 = i).
    { destruct Hwf as [Hnd Hw]. split.
      - intros E. apply Hw in Hn.
        apply (proj1 (NoDup_alt _) Hnd i0 i n Hn).
        rewrite list_lookup_fmap, Hf. simpl. congruence.
      - intros <-. apply Hw in Hn. rewrite list_lookup_fmap, Hf in Hn.
        simpl in Hn. congruence. }
    simpl in Hfs.
    destruct (decide (i0 = i)) as [E|N].
    + subst i0. rewrite (Hfs i (rename n (set_data ic f))).
      2:{ rewrite list_lookup_alter_eq, Hf. reflexivity. }
      assert (En : name f = n) by (apply Hname; reflexivity).
      simpl. rewrite En.
      destruct (assigned n rest) as [w|]; simpl.
      * destruct f; simpl in *; subst; reflexivity.
      * destruct (decide (n = n)) as [_|C]; [|contradiction].
        destruct f; simpl in *; subst; reflexivity.
    + rewrite (Hfs i f).
      2:{ rewrite list_lookup_alter_ne by exact N. exact Hf. }
      simpl. destruct (assigned (name f) rest) as [w|]; [reflexivity|].
      destruct (decide (n = name f)) as [C|_]; [|reflexivity].
      exfalso. apply N, Hname. congruence.
Qed.

(** On a state whose names are distinct, [initialise] returns exactly when
    every listed name is a field; it then leaves in each field the last
    value listed for its name, keeps every other field, and changes no
    name, flag or position. *)
Theorem initialise_spec (ics : list (string * dofs)) (s : State) :
  fc_wf (field_creator s) ->
  ((exists s', initialise ics s = Ok s') <->
   (forall n, n ∈ ics.*1 -> is_Some (attrs (field_creator s) !! n))) /\
  (forall s',
      initialise ics s = Ok s' ->
      attrs (field_creator s') = attrs (field_creator s) /\
      forall i f,
        fields (field_creator s) !! i = Some f ->
        fields (field_creator s') !! i
        = Some (set_data (default (data f) (assigned (name f) ics)) f)).
Proof.
  intros Hwf. split.
  - revert s Hwf. induction ics as [|[n ic] rest IH]; intros s Hwf; simpl.
    + split; [intros _ m Hm; apply elem_of_nil in Hm; contradiction|].
      intros _. eauto.
    + destruct (attrs (field_creator s) !! n) as [i0|] eqn:Hn.
      * pose proof (alter_rename_names _ n i0 ic Hwf Hn) as Hnames.
        rewrite IH.
        2:{ apply (fc_wf_same_names (field_creator s)); simpl; auto. }
        simpl. split.
        -- intros H m Hm. apply elem_of_cons in Hm as [->|Hm]; eauto.
        -- intros H m Hm. apply H. right. exact Hm.
      * split; [intros [s' H]; discriminate|].
        intros H. destruct (H n) as [i Hi]; [left|]. congruence.
  - intros s' H. apply initialise_rel in H as (Hat & _ & Hfs); auto.
Qed.

Lemma example_state_wf : fc_wf (field_creator example_state).
Proof.
  apply (FieldCreator_init_spec ["u"; "rho"; "theta"]
           (zip ["u"; "rho"; "theta"] (xn_split 2 (Some 1%Z)))
           {| attrs := ∅; fields := [] |} fc_wf_empty).
  - compute_done.
  - intros n _. apply lookup_empty.
Qed.

Lemma initialise_spec_witness :
  exists s', initialise [("theta", fun _ => 300)] example_state = Ok s'.
Proof.
  apply (initialise_spec [("theta", fun _ => 300)] example_state
           example_state_wf).
  intros n Hn. apply elem_of_cons in Hn as [->|Hn].
  - exists 2%nat. reflexivity.
  - apply elem_of_nil in Hn. contradiction.
Defined.

(** *** [set_reference_profiles] *)

(** The reference profiles under the names of the fields they go to. *)
Definition bar_profiles (profiles : list (string * dofs))
  : list (string * dofs) :=
  (fun p => (String.append p.1 "bar", p.2)) <$> profiles.

(** What relates the fields before and after: an existing field keeps its
    position, name, shape and flags and holds the last profile sent to its
    name, if any; a new field is not dumped, is picked up, is named after a
    listed name and holds the last profile sent to it. *)
Definition reference_profiles_rel (profiles : list (string * dofs))
    (fs fs' : list field) : Prop :=
  (length fs <= length fs')%nat /\
  forall i f',
    fs' !! i = Some f' ->
    match fs !! i with
    | Some f =>
        name f' = name f /\ ufl_shape f' = ufl_shape f /\
        dump_flag f' = dump_flag f /\ pickup_flag f' = pickup_flag f /\
        data f' = default (data f) (assigned (name f) (bar_profiles profiles))
    | None =>
        dump_flag f' = false /\ pickup_flag f' = true /\
        (exists n, n ∈ profiles.*1 /\ name f' = String.append n "bar") /\
        assigned (name f') (bar_profiles profiles) = Some (data f')
    end.

Lemma assigned_cons (n m : string) (v : dofs) (rest : list (string * dofs)) :
  assigned n ((m, v) :: rest)
  = match assigned n rest with
    | Some w => Some w
    | None => if decide (m = n) then Some v else None
    end.
Proof. reflexivity. Qed.

Lemma bar_profiles_cons (p : string * dofs) (rest : list (string * dofs)) :
  bar_profiles (p :: rest)
  = (String.append p.1 "bar", p.2) :: bar_profiles rest.
Proof. reflexivity. Qed.

Lemma alter_set_data_names (fs : list field) (j : nat) (v : dofs) :
  name <$> alter (set_data v) j fs = name <$> fs.
Proof.
  apply list_eq. intros i. rewrite !list_lookup_fmap, list_lookup_alter.
  destruct (decide (j = i)) as [<-|]; [|reflexivity].
  destruct (fs !! j); reflexivity.
Qed.

Lemma set_reference_profiles_rel (profiles : list (string * dofs)) :
  forall s s' : State,
    fc_wf (field_creator s) ->
    set_reference_profiles profiles s = Ok s' ->
    fc_wf (field_creator s') /\
    (forall n, n ∈ profiles.*1 ->
               is_Some (attrs (field_creator s') !! String.append n "bar")) /\
    (forall m i, attrs (field_creator s) !! m = Some i ->
                 attrs (field_creator s') !! m = Some i) /\
    reference_profiles_rel profiles (fields (field_creator s))
      (fields (field_creator s')).
Proof.
  induction profiles as [|[n profile] rest IH]; intros s s' Hwf H;
    simpl in H.
  - injection H as <-. split; [exact Hwf|].
    split; [intros n Hn; apply elem_of_nil in Hn; contradiction|].
    split; [auto|]. split; [lia|].
    intros i f' Hf. rewrite Hf. auto.
  - destruct (attrs (field_creator s) !! n) as [i0|] eqn:Hn; [|discriminate].
    destruct (fields (field_creator s) !! i0) as [fld|] eqn:Hfld;
      [|discriminate].
    unfold_bind.
    destruct (FieldCreator_call (String.append n "bar")
                (Some (ufl_shape fld)) false true (field_creator s))
      as [[j fc]|] eqn:Hcall; [|discriminate].
    set (fs := fields (field_creator s)) in *.
    set (bar := String.append n "bar") in *.
    (* the state after the first profile *)
    assert (Hstep :
      fc_wf fc /\ attrs fc !! bar = Some j /\
      (forall m i, attrs (field_creator s) !! m = Some i ->
                   attrs fc !! m = Some i) /\
      (length fs <= length (fields fc))%nat /\
      forall i f1,
        alter (set_data profile) j (fields fc) !! i = Some f1 ->
        match fs !! i with
        | Some f =>
            f1 = (if decide (name f = bar) then set_data profile f else f)
        | None =>
            f1 = {| name := bar; data := profile; ufl_shape := ufl_shape fld;
                    dump_flag := false; pickup_flag := true |}
        end).
    { unfold FieldCreator_call in Hcall.
      destruct (attrs (field_creator s) !! bar) as [j0|] eqn:Hbar.
      - injection Hcall as <- <-. split; [exact Hwf|]. split; [exact Hbar|].
        split; [auto|]. split; [fold fs; lia|].
        intros i f1 Hf1. fold fs in Hf1. rewrite list_lookup_alter in Hf1.
        destruct Hwf as [Hnd Hw]. apply Hw in Hbar. pose proof Hbar as Hbar0.
        rewrite list_lookup_fmap in Hbar. fold fs in Hbar.
        destruct (decide (j0 = i)) as [<-|N].
        + destruct (fs !! j0) as [f|]; [|discriminate].
          simpl in Hf1, Hbar. injection Hf1 as <-. injection Hbar as Hb.
          destruct (decide (name f = bar)); [reflexivity | contradiction].
        + rewrite Hf1. destruct (decide (name f1 = bar)) as [E|]; [|reflexivity].
          exfalso. apply N.
          apply (proj1 (NoDup_alt _) Hnd j0 i bar Hbar0).
          rewrite list_lookup_fmap. fold fs. rewrite Hf1. simpl. congruence.
      - injection Hcall as <- <-.
        set (new := {| name := bar; data := vzero; ufl_shape := ufl_shape fld;
                       dump_flag := false; pickup_flag := true |}).
        split; [apply (fc_wf_append (field_creator s) new Hwf Hbar)|].
        split; [simpl; apply lookup_insert_eq|].
        split.
        { intros m i Hm. simpl. rewrite lookup_insert_ne; [exact Hm|].
          intros <-. congruence. }
        split; [simpl; rewrite length_app; fold fs; lia|].
        intros i f1 Hf1. simpl in Hf1. fold fs in Hf1.
        rewrite list_lookup_alter in Hf1.
        destruct (decide (length fs = i)) as [<-|N].
        + rewrite lookup_app_r in Hf1 by lia.
          rewrite Nat.sub_diag in Hf1. simpl in Hf1. injection Hf1 as <-.
          rewrite (proj2 (lookup_ge_None fs (length fs))) by lia.
          reflexivity.
        + destruct (fs !! i) as [f|] eqn:Hf.
          * rewrite lookup_app_l in Hf1
              by (apply lookup_lt_Some in Hf; exact Hf).
            rewrite Hf in Hf1. injection Hf1 as <-.
            destruct (decide (name f = bar)) as [E|]; [|reflexivity].
            exfalso. apply (fc_wf_fresh _ bar Hwf Hbar).
            apply list_elem_of_lookup. exists i.
            rewrite list_lookup_fmap. fold fs. rewrite Hf. simpl. congruence.
          * apply lookup_ge_None in Hf.
            rewrite lookup_app_r in Hf1 by lia.
            destruct (i - length fs)%nat eqn:E; [lia|]. discriminate. }
    destruct Hstep as (Hwf1 & Hj & Hmono1 & Hlen1 & Hfs1).
    apply IH in H as (Hwf' & Hbars & Hmono & Hlen & Hrel).
    2:{ apply (fc_wf_same_names fc); simpl; auto using alter_set_data_names. }
    simpl in Hmono, Hlen, Hrel.
    split; [exact Hwf'|]. split.
    { intros m Hm. simpl in Hm. apply elem_of_cons in Hm as [->|Hm].
      - exists j. apply Hmono. exact Hj.
      - apply Hbars. exact Hm. }
    split; [intros m i Hm; apply Hmono, Hmono1, Hm|].
    split; [rewrite length_alter in Hlen; lia|].
    intros i f' Hf'. specialize (Hrel i f' Hf').
    destruct (alter (set_data profile) j (fields fc) !! i) as [f1|] eqn:Hf1.
    + specialize (Hfs1 i f1 Hf1).
      rewrite bar_profiles_cons. cbn [fst snd]. fold bar.
      destruct (fs !! i) as [f|] eqn:Hf.
      * subst f1. rewrite assigned_cons.
        destruct (decide (name f = bar)) as [E|N];
          cbn [data set_data name ufl_shape dump_flag pickup_flag] in Hrel;
          destruct Hrel as (En & Es & Ed & Ep & Edata);
          repeat split; try assumption; rewrite Edata.
        -- rewrite E.
           destruct (assigned bar (bar_profiles rest)); [reflexivity|].
           destruct (decide (bar = bar)); [reflexivity | contradiction].
        -- destruct (assigned (name f) (bar_profiles rest)); [reflexivity|].
           destruct (decide (bar = name f)); [congruence | reflexivity].
      * subst f1.
        cbn [data set_data name ufl_shape dump_flag pickup_flag] in Hrel.
        destruct Hrel as (En & Es & Ed & Ep & Edata).
        repeat split; try assumption.
        -- exists n. split; [left | exact En].
        -- rewrite assigned_cons, En, Edata.
           destruct (assigned bar (bar_profiles rest)); [reflexivity|].
           destruct (decide (bar = bar)); [reflexivity | contradiction].
    + assert (Hnone : fs !! i = None).
      { apply lookup_ge_None. apply lookup_ge_None in Hf1.
        rewrite length_alter in Hf1. lia. }
      rewrite Hnone. destruct Hrel as (Ed & Ep & (m & Hm & En) & Ea).
      repeat split; try assumption.
      * exists m. split; [right; exact Hm | exact En].
      * rewrite bar_profiles_cons, assigned_cons, Ea. reflexivity.
Qed.

Lemma assigned_is_Some (n : string) (ics : list (string * dofs)) :
  n ∈ ics.*1 -> is_Some (assigned n ics).
Proof.
  induction ics as [|[m v] rest IH]; intros Hn; simpl in *.
  - apply elem_of_nil in Hn. contradiction.
  - destruct (assigned n rest) as [w|] eqn:E; [eauto|].
    apply elem_of_cons in Hn as [->|Hn].
    + destruct (decide (m = m)); [eauto | contradiction].
    + apply IH in Hn as [w Hw]. discriminate.
Qed.

Lemma bar_profiles_names (n : string) (profiles : list (string * dofs)) :
  n ∈ profiles.*1 -> String.append n "bar" ∈ (bar_profiles profiles).*1.
Proof.
  intros Hn. apply list_elem_of_fmap in Hn as ([m v] & -> & Hin).
  apply list_elem_of_fmap. exists (String.append m "bar", v).
  split; [reflexivity|].
  apply list_elem_of_fmap. exists (m, v). auto.
Qed.

(** On a state whose names are distinct, a call of
    [set_reference_profiles] that returns keeps the names distinct; every
    existing field keeps its position, name, shape and flags, and its
    coefficients unless a profile was sent to its name; for every listed
    name the field [name + 'bar'] exists and holds the last profile listed
    for it; and the fields the call created are not dumped but are picked
    up: a [setup_dump] that follows puts them in [to_pickup] and not in
    [to_dump]. *)
Theorem set_reference_profiles_spec (profiles : list (string * dofs))
    (s s' : State) :
  fc_wf (field_creator s) ->
  set_reference_profiles profiles s = Ok s' ->
  fc_wf (field_creator s') /\
  reference_profiles_rel profiles (fields (field_creator s))
    (fields (field_creator s')) /\
  (forall n, n ∈ profiles.*1 ->
     exists j f',
       attrs (field_creator s') !! String.append n "bar" = Some j /\
       fields (field_creator s') !! j = Some f' /\
       assigned (String.append n "bar") (bar_profiles profiles)
       = Some (data f')) /\
  (forall rank pickup d a d',
      setup_dump rank pickup s' d = Ok (a, d') ->
      forall i,
        (length (fields (field_creator s)) <= i
         < length (fields (field_creator s')))%nat ->
        i ∈ to_pickup a /\ i ∉ to_dump a).
Proof.
  intros Hwf H.
  apply set_reference_profiles_rel in H as (Hwf' & Hbars & _ & Hrel);
    [|exact Hwf].
  split; [exact Hwf'|]. split; [exact Hrel|]. split.
  - intros n Hn. destruct (Hbars n Hn) as [j Hj]. exists j.
    pose proof (proj1 (proj2 Hwf' _ _) Hj) as Hname.
    rewrite list_lookup_fmap in Hname.
    destruct (fields (field_creator s') !! j) as [f'|] eqn:Hf';
      [|discriminate].
    simpl in Hname. injection Hname as Hname.
    exists f'. split; [exact Hj|]. split; [reflexivity|].
    destruct Hrel as [_ Hrel]. specialize (Hrel j f' Hf').
    destruct (fields (field_creator s) !! j) as [f|].
    + destruct Hrel as (En & _ & _ & _ & Edata).
      destruct (assigned_is_Some _ _ (bar_profiles_names n profiles Hn))
        as [w Hw].
      rewrite <- En, Hname, Hw in Edata. simpl in Edata.
      rewrite Hw, Edata. reflexivity.
    + destruct Hrel as (_ & _ & _ & Ea). rewrite <- Hname. exact Ea.
  - intros rank pickup d a d' Hsetup i [Hlo Hhi].
    unfold setup_dump in Hsetup.
    destruct (_ && _ && _ && _); [discriminate|].
    unfold_bind. destruct (lookup_all _ _); [|discriminate].
    injection Hsetup as <- _. simpl.
    apply lookup_lt_is_Some in Hhi as [f' Hf'].
    destruct Hrel as [_ Hrel]. specialize (Hrel i f' Hf').
    rewrite (proj2 (lookup_ge_None _ i)) in Hrel by lia.
    destruct Hrel as (Ed & Ep & _).
    rewrite !elem_of_select, Nat.sub_0_r. split.
    + exists f'. split; [lia | auto].
    + intros (g & _ & Hg & HP). congruence.
Qed.

Lemma set_reference_profiles_spec_witness :
  exists s',
    set_reference_profiles [("theta", fun _ => 300)] example_state = Ok s' /\
    fc_wf (field_creator s').
Proof.
  eexists. split; [reflexivity|].
  destruct (set_reference_profiles_spec [("theta", fun _ => 300)]
              example_state _ example_state_wf eq_refl) as (H & _).
  exact H.
Defined.

End StateFields.

(** ** The diagnostic time series kept by [dump] ([gusto/state.py]) *)

Module DiagnosticData.

Import Forcing State.

(** [diagnostic_data[name][fn]], the empty list where nothing was
    recorded. *)
Definition series (dd : gmap string (gmap string (list R)))
    (n fn : string) : list R :=
  default [] (default ∅ (dd !! n) !! fn).

(** [self.fields(name)] for a name that is a field. *)
Definition field_named (fc : FieldCreator) (n : string) : option field :=
  match attrs fc !! n with
  | Some i => fields fc !! i
  | None => None
  end.

(** The reductions recorded for a field: [min], [max], [rms] and [l2], and
    [total] for a scalar field. *)
Definition recorded (f : field) (fn : string) : Prop :=
  fn ∈ diagnostic_fns \/ (fn = "total" /\ ufl_shape f = []).

#[local] Instance recorded_dec (f : field) (fn : string)
  : Decision (recorded f fn).
Proof. unfold recorded. apply _. Defined.

(** What one writing [dump] appends to the series of [n], [fn]. *)
Definition appended (S : substrate) (fc : FieldCreator)
    (names : list string) (n fn : string) : list R :=
  if decide (n ∈ names) then
    match field_named fc n with
    | Some f => if decide (recorded f fn) then [diagnostic S fn (data f)]
                else []
    | None => []
    end
  else [].

Lemma series_append (dd : gmap string (gmap string (list R)))
    (n fn : string) (v : R) (n' fn' : string) :
  series (append_diagnostic n fn v dd) n' fn'
  = if decide (n' = n /\ fn' = fn) then series dd n fn ++ [v]
    else series dd n' fn'.
Proof.
  unfold series, append_diagnostic.
  destruct (decide (n' = n)) as [->|Nn].
  - rewrite lookup_insert_eq. simpl.
    destruct (decide (fn' = fn)) as [->|Nf].
    + rewrite lookup_insert_eq. simpl.
      destruct (decide (n = n /\ fn = fn)) as [_|C]; [reflexivity|].
      exfalso. apply C. auto.
    + rewrite lookup_insert_ne by congruence.
      destruct (decide (n = n /\ fn' = fn)) as [[_ C]|_];
        [contradiction | reflexivity].
  - rewrite lookup_insert_ne by congruence.
    destruct (decide (n' = n /\ fn' = fn)) as [[C _]|_];
      [contradiction | reflexivity].
Qed.

Lemma series_append_same (dd : gmap string (gmap string (list R)))
    (n fn : string) (v : R) :
  series (append_diagnostic n fn v dd) n fn = series dd n fn ++ [v].
Proof.
  rewrite series_append.
  destruct (decide (n = n /\ fn = fn)) as [_|C]; [reflexivity|].
  exfalso. apply C. auto.
Qed.

Lemma series_append_other (dd : gmap string (gmap string (list R)))
    (n fn : string) (v : R) (n' fn' : string) :
  n' <> n \/ fn' <> fn ->
  series (append_diagnostic n fn v dd) n' fn' = series dd n' fn'.
Proof.
  intros N. rewrite series_append.
  destruct (decide (n' = n /\ fn' = fn)) as [[E1 E2]|_]; [|reflexivity].
  destruct N; contradiction.
Qed.

Ltac series_step :=
  first [ rewrite series_append_same
        | rewrite series_append_other by (right; congruence)
        | rewrite series_append_other by (left; congruence) ].

Ltac not_in_fns H :=
  repeat (apply elem_of_cons in H as [H|H]; [congruence|]);
  apply elem_of_nil in H; contradiction.

Lemma recorded_total (f : field) :
  recorded f "total" <-> ufl_shape f = [].
Proof.
  unfold recorded, diagnostic_fns. split.
  - intros [H|[_ H]]; [not_in_fns H | exact H].
  - intros H. right. auto.
Qed.

Lemma recorded_other (f : field) (fn : string) :
  fn <> "min" -> fn <> "max" -> fn <> "rms" -> fn <> "l2" ->
  fn <> "total" -> ~ recorded f fn.
Proof.
  unfold recorded, diagnostic_fns. intros N1 N2 N3 N4 N5 [H|[H _]];
    [not_in_fns H | contradiction].
Qed.

Lemma recorded_fns (f : field) (fn : string) :
  fn ∈ diagnostic_fns -> recorded f fn.
Proof. intros H. left. exact H. Qed.

Lemma compute_diagnostics_for_series (S : substrate) (fc : FieldCreator)
    (n : string) (dd dd' : gmap string (gmap string (list R))) :
  compute_diagnostics_for S fc n dd = Ok dd' ->
  exists f, field_named fc n = Some f /\
    forall n' fn',
      series dd' n' fn'
      = series dd n' fn'
        ++ (if decide (n' = n /\ recorded f fn')
            then [diagnostic S fn' (data f)] else []).
Proof.
  unfold compute_diagnostics_for, FieldCreator_call, field_named.
  destruct (attrs fc !! n) as [i|]; [|discriminate]. unfold_bind.
  destruct (fields fc !! i) as [f|]; [|discriminate].
  intros H. exists f. split; [reflexivity|]. intros n' fn'.
  assert (Hscalar : bool_decide (length (ufl_shape f) = 0%nat) = true
                    <-> ufl_shape f = []).
  { rewrite bool_decide_eq_true. apply length_zero_iff_nil. }
  destruct (decide (n' = n)) as [->|Nn].
  2:{ destruct (decide (n' = n /\ recorded f fn')) as [[C _]|_];
        [contradiction|].
      rewrite app_nil_r.
      destruct (bool_decide _); injection H as <-; simpl;
        repeat series_step; reflexivity. }
  destruct (decide (n = n /\ recorded f fn')) as [[_ Hr]|Hr].
  - destruct Hr as [Hin|[-> Hsh]].
    + unfold diagnostic_fns in Hin.
      repeat (apply elem_of_cons in Hin as [->|Hin]);
        [| | | |apply elem_of_nil in Hin; contradiction];
        destruct (bool_decide _); injection H as <-; simpl;
        repeat series_step; reflexivity.
    + apply Hscalar in Hsh. rewrite Hsh in H. injection H as <-. simpl.
      repeat series_step. reflexivity.
  - rewrite app_nil_r.
    assert (N1 : fn' <> "min")
      by (intros ->; apply Hr; split;
          [reflexivity | apply recorded_fns; compute_done]).
    assert (N2 : fn' <> "max")
      by (intros ->; apply Hr; split;
          [reflexivity | apply recorded_fns; compute_done]).
    assert (N3 : fn' <> "rms")
      by (intros ->; apply Hr; split;
          [reflexivity | apply recorded_fns; compute_done]).
    assert (N4 : fn' <> "l2")
      by (intros ->; apply Hr; split;
          [reflexivity | apply recorded_fns; compute_done]).
    destruct (bool_decide _) eqn:Hs; injection H as <-; simpl.
    + assert (N5 : fn' <> "total").
      { intros ->. apply Hr. split; [reflexivity|].
        apply recorded_total, Hscalar. reflexivity. }
      repeat series_step. reflexivity.
    + repeat series_step. reflexivity.
Qed.

Lemma compute_diagnostics_series (S : substrate) (fc : FieldCreator)
    (names : list string) :
  NoDup names ->
  forall dd dd',
    compute_diagnostics S fc names dd = Ok dd' ->
    forall n fn,
      series dd' n fn = series dd n fn ++ appended S fc names n fn.
Proof.
  induction names as [|m rest IH]; intros Hnd dd dd' H n fn; simpl in H.
  - injection H as <-. unfold appended.
    destruct (decide (n ∈ [])) as [C|_];
      [apply elem_of_nil in C; contradiction|].
    rewrite app_nil_r. reflexivity.
  - apply NoDup_cons in Hnd as [Hm Hnd]. unfold_bind.
    destruct (compute_diagnostics_for S fc m dd) as [dd1|] eqn:E;
      [|discriminate].
    apply compute_diagnostics_for_series in E as (f & Hf & E).
    rewrite (IH Hnd dd1 dd' H n fn), E, <- app_assoc. f_equal.
    unfold appended.
    destruct (decide (n = m)) as [->|N].
    + destruct (decide (m ∈ m :: rest)) as [_|C];
        [|exfalso; apply C; left].
      destruct (decide (m ∈ rest)) as [C|_]; [contradiction|].
      rewrite Hf, app_nil_r.
      destruct (decide (m = m /\ recorded f fn)) as [[_ Hr]|Hr];
        destruct (decide (recorded f fn)) as [Hr'|Hr'];
        try reflexivity; try contradiction.
      exfalso. apply Hr. auto.
    + destruct (decide (n = m /\ recorded f fn)) as [[C _]|_];
        [contradiction|]. simpl.
      destruct (decide (n ∈ m :: rest)) as [H1|H1],
               (decide (n ∈ rest)) as [H2|H2]; try reflexivity.
      * apply elem_of_cons in H1 as [->|H1]; contradiction.
      * exfalso. apply H1. right. exact H2.
Qed.

(** A [dump] that writes, on a state whose diagnostics names are distinct,
    appends exactly one value to each series it records (for each
    diagnostics name: [min], [max], [rms], [l2], and [total] when the field
    is scalar), computed from the field as it is after the diagnostic
    fields were evaluated, and leaves every other series as it was; so all
    recorded series of a run have one entry per written dump. *)
Theorem dump_appends_diagnostics (S : substrate) (t r : R) (every : bool)
    (s s' : State) (a a' : dump_attrs) (d d' : disk) :
  NoDup (diagnostics s) ->
  (Z.of_nat (dumpcount a) mod dumpfreq (output s) = 0)%Z ->
  dump S t every false s a d = Ok (r, s', a', d') ->
  forall n fn,
    series (diagnostic_data a') n fn
    = series (diagnostic_data a) n fn
      ++ appended S (field_creator s') (diagnostics s) n fn.
Proof.
  intros Hnd Hmod H n fn. unfold dump in H.
  destruct (dumpfreq (output s) =? 0)%Z; [discriminate|].
  rewrite Hmod in H. simpl in H.
  apply dump_write_inv in H as (_ & -> & _ & _ & _ & _ & _ & Hdd).
  apply (compute_diagnostics_series S _ _ Hnd _ _ Hdd).
Qed.

Lemma dump_appends_diagnostics_witness :
  exists s' a' d',
    dump example_substrate 7 false false example_state example_attrs
      example_disk = Ok (7, s', a', d') /\
    series (diagnostic_data a') "rho" "total"
    = series (diagnostic_data example_attrs) "rho" "total"
      ++ appended example_substrate (field_creator s')
           (diagnostics example_state) "rho" "total".
Proof.
  eexists _, _, _. split; [reflexivity|].
  eapply (dump_appends_diagnostics example_substrate 7 7 false example_state
            _ example_attrs _ example_disk).
  - compute_done.
  - reflexivity.
  - reflexivity.
Defined.

(** *** What [dump] leaves alone *)

Lemma eval_diagnostic_fields_other (S : substrate) (ds : list nat) :
  forall (fs : list field) (i : nat),
    i ∉ ds -> eval_diagnostic_fields S ds fs !! i = fs !! i.
Proof.
  induction ds as [|j rest IH]; intros fs i Hi; simpl; [reflexivity|].
  rewrite IH by (intros C; apply Hi; right; exact C).
  apply list_lookup_alter_ne. intros ->. apply Hi. left.
Qed.

Lemma load_fields_other (ds : gmap string dofs) (refs : list nat) :
  forall (fs fs' : list field) (i : nat),
    load_fields ds refs fs = Ok fs' -> i ∉ refs -> fs' !! i = fs !! i.
Proof.
  induction refs as [|j rest IH]; intros fs fs' i H Hi; simpl in H.
  - injection H as <-. reflexivity.
  - assert (Hr : i ∉ rest) by (intros C; apply Hi; right; exact C).
    assert (Hj : j <> i) by (intros ->; apply Hi; left).
    destruct (fs !! j) as [g|]; [|apply (IH _ _ _ H Hr)].
    destruct (ds !! name g) as [v|]; [|discriminate].
    rewrite (IH _ _ _ H Hr). apply list_lookup_insert_ne. exact Hj.
Qed.

Lemma load_fields_length (ds : gmap string dofs) (refs : list nat) :
  forall (fs fs' : list field),
    load_fields ds refs fs = Ok fs' -> length fs' = length fs.
Proof.
  induction refs as [|j rest IH]; intros fs fs' H; simpl in H.
  - injection H as <-. reflexivity.
  - destruct (fs !! j) as [g|]; [|apply (IH _ _ H)].
    destruct (ds !! name g) as [v|]; [|discriminate].
    rewrite (IH _ _ H). apply length_insert.
Qed.

Lemma load_fields_meta (ds : gmap string dofs) (refs : list nat) :
  forall (fs fs' : list field),
    load_fields ds refs fs = Ok fs' ->
    forall i f', fs' !! i = Some f' ->
      exists f, fs !! i = Some f /\ name f' = name f /\
                ufl_shape f' = ufl_shape f /\
                dump_flag f' = dump_flag f /\
                pickup_flag f' = pickup_flag f.
Proof.
  induction refs as [|j rest IH]; intros fs fs' H i f' Hf'; simpl in H.
  - injection H as <-. exists f'. auto.
  - destruct (fs !! j) as [g|] eqn:Hg; [|apply (IH _ _ H i f' Hf')].
    destruct (ds !! name g) as [v|]; [|discriminate].
    destruct (IH _ _ H i f' Hf') as (f1 & H1 & Hmeta).
    destruct (decide (j = i)) as [->|N].
    + rewrite list_lookup_insert_eq in H1
        by (apply lookup_lt_is_Some; eauto).
      injection H1 as <-. exists g. auto.
    + rewrite list_lookup_insert_ne in H1 by exact N. exists f1. auto.
Qed.

Lemma eval_diagnostic_fields_meta (S : substrate) (ds : list nat) :
  forall (fs : list field) (i : nat) (f' : field),
    eval_diagnostic_fields S ds fs !! i = Some f' ->
    exists f, fs !! i = Some f /\ name f' = name f /\
              ufl_shape f' = ufl_shape f /\
              dump_flag f' = dump_flag f /\
              pickup_flag f' = pickup_flag f.
Proof.
  induction ds as [|j rest IH]; intros fs i f' Hf'; simpl in Hf'.
  - exists f'. auto.
  - destruct (IH _ i f' Hf') as (f1 & H1 & Hmeta).
    destruct (decide (j = i)) as [->|N].
    + rewrite list_lookup_alter_eq in H1.
      destruct (fs !! i) as [g|]; [|discriminate].
      injection H1 as <-. exists g. auto.
    + rewrite list_lookup_alter_ne in H1 by exact N. exists f1. auto.
Qed.

(** A call of [dump] that returns never adds, removes, renames, reshapes
    or reflags a field, and changes coefficients only where it is meant to: without
    [pickup], only in the fields the diagnostic fields write, and only
    when it is a writing call; with [pickup], only in the fields of
    [to_pickup].  The lists [to_dump] and [to_pickup] stay as
    [setup_dump] built them. *)
Theorem dump_frame (S : substrate) (t r : R) (every pickup : bool)
    (s s' : State) (a a' : dump_attrs) (d d' : disk) :
  dump S t every pickup s a d = Ok (r, s', a', d') ->
  to_dump a' = to_dump a /\ to_pickup a' = to_pickup a /\
  attrs (field_creator s') = attrs (field_creator s) /\
  length (fields (field_creator s')) = length (fields (field_creator s)) /\
  (forall i f', fields (field_creator s') !! i = Some f' ->
     exists f, fields (field_creator s) !! i = Some f /\
               name f' = name f /\ ufl_shape f' = ufl_shape f /\
               dump_flag f' = dump_flag f /\
               pickup_flag f' = pickup_flag f) /\
  (forall i,
      (if pickup then i ∉ to_pickup a else i ∉ diagnostic_fields s) ->
      fields (field_creator s') !! i = fields (field_creator s) !! i).
Proof.
  unfold dump. destruct pickup.
  - intros H. apply dump_pickup_inv in H
      as (-> & _ & chk & fs & _ & _ & Hload & ->). simpl.
    assert (Hmeta := load_fields_meta _ _ _ _ Hload).
    assert (Hlen : length fs = length (fields (field_creator s)))
      by apply (load_fields_length _ _ _ _ Hload).
    repeat split; try reflexivity; try exact Hlen.
    + intros i f' Hf'. apply (Hmeta i f' Hf').
    + intros i Hi. apply (load_fields_other _ _ _ _ _ Hload Hi).
  - destruct (dumpfreq (output s) =? 0)%Z; [discriminate|].
    destruct (Z.of_nat (dumpcount a) mod dumpfreq (output s) =? 0)%Z.
    + unfold dump_write. unfold_bind. cbv zeta.
      destruct (compute_diagnostics _ _ _ _) as [dd|]; [|discriminate].
      intros H. injection H as <- <- <- <-. simpl.
      repeat split; try reflexivity.
      * apply eval_diagnostic_fields_length.
      * intros i f' Hf'. apply (eval_diagnostic_fields_meta _ _ _ _ _ Hf').
      * intros i Hi. apply eval_diagnostic_fields_other. exact Hi.
    + intros H. injection H as <- <- <- <-. simpl.
      repeat split; try reflexivity.
      intros i f' Hf'. exists f'. auto.
Qed.

Lemma dump_frame_witness :
  exists r s' a' d',
    dump example_substrate 0 false true example_state example_attrs
      example_disk = Ok (r, s', a', d') /\
    to_pickup a' = to_pickup example_attrs.
Proof.
  eexists _, _, _, _. split; [reflexivity|].
  eapply (dump_frame example_substrate 0 _ false true example_state _
            example_attrs _ example_disk).
  reflexivity.
Defined.

End DiagnosticData.

(** ** The advection and continuity forms
    ([gusto/transport_equation.py]) *)

Module TransportForms.

Import TransportEquation.

(** The measures [surface_measures] hands out. *)
Inductive measure : Type :=
  | dS_h_plus_dS_v | dS | ds_b_plus_ds_t_plus_ds_v | ds.

(** [surface_measures(V)], from [is_cg(V)] and [V.extruded]: the
    interior and exterior facet measures, or [(None, None)]. *)
Definition surface_measures (is_cg extruded : bool)
  : option measure * option measure :=
  if is_cg then (None, None)
  else if extruded then (Some dS_h_plus_dS_v, Some ds_b_plus_ds_t_plus_ds_v)
       else (Some dS, Some ds).

(** The terms summed into [L], with the measure of the facet terms. *)
Inductive term : Type :=
  | advective_volume_once   (* -inner(div(outer(test, ubar)), q)*dx *)
  | advective_volume        (* inner(outer(test, ubar), grad(q))*dx *)
  | continuity_volume_once  (* -inner(grad(test), outer(q, ubar))*dx *)
  | continuity_volume       (* inner(test, div(outer(q, ubar)))*dx *)
  | upwind_jump (m : measure)
      (* dot(jump(test), (un('+')*q('+') - un('-')*q('-')))*dS *)
  | twice_correction (m : measure)
      (* -(inner(test('+'), dot(ubar('+'), n('+'))*q('+'))
           + inner(test('-'), dot(ubar('-'), n('-'))*q('-')))*dS *)
  | outflow_boundary (m : option measure).   (* test*un*q*ds *)

(** A form, or the error of reading the local [un] before it is bound. *)
Inductive outcome : Type :=
  | Form (L : list term)
  | UnboundLocalError.

Definition is_never (ibp : IntegrateByParts) : bool :=
  match ibp with NEVER => true | _ => false end.

Definition is_twice (ibp : IntegrateByParts) : bool :=
  match ibp with TWICE => true | _ => false end.

(** The facet terms shared by both forms, present when [dS] is not [None]
    and [ibp] is not [NEVER]; [un] is bound exactly then. *)
Definition facet_terms (interior : option measure) (ibp : IntegrateByParts)
  : option (list term) :=
  match interior with
  | Some m =>
      if negb (is_never ibp)
      then Some (upwind_jump m
                 :: (if is_twice ibp then [twice_correction m] else []))
      else None
  | None => None
  end.

(** [advection_form(state, V, idx, ibp=..., outflow=...)]; [outflow] tells
    whether the argument is other than [None]. *)
Definition advection_form (is_cg extruded : bool) (ibp : IntegrateByParts)
    (outflow : bool) : outcome :=
  let '(interior, exterior) := surface_measures is_cg extruded in
  let L := [if is_once ibp then advective_volume_once else advective_volume] in
  match facet_terms interior ibp with
  | Some facets =>
      let L := L ++ facets in
      if outflow then Form (L ++ [outflow_boundary exterior]) else Form L
  | None =>
      if outflow then UnboundLocalError else Form L
  end.

(** [continuity_form(state, V, idx, ibp=...)] *)
Definition continuity_form (is_cg extruded : bool) (ibp : IntegrateByParts)
  : list term :=
  let '(interior, exterior) := surface_measures is_cg extruded in
  let L := [if is_once ibp then continuity_volume_once
            else continuity_volume] in
  match facet_terms interior ibp with
  | Some facets => L ++ facets
  | None => L
  end.

(** [advection_form] fails exactly when an outflow term is asked for on a
    continuous space or with [ibp = NEVER], where [un] was never bound;
    when it returns, its facet terms are those of [continuity_form],
    followed by the outflow term if asked for, on the exterior measure. *)
Theorem advection_form_outflow (is_cg extruded : bool)
    (ibp : IntegrateByParts) (outflow : bool) :
  (advection_form is_cg extruded ibp outflow = UnboundLocalError
   <-> outflow = true /\ (is_cg = true \/ ibp = NEVER)) /\
  (forall L,
      advection_form is_cg extruded ibp outflow = Form L ->
      tail L
      = tail (continuity_form is_cg extruded ibp)
        ++ (if outflow
            then [outflow_boundary (snd (surface_measures is_cg extruded))]
            else [])).
Proof.
  split.
  - destruct is_cg, extruded, ibp, outflow; simpl; split;
      try discriminate; try reflexivity; try (intros _; auto; fail);
      intros [H1 [H2|H2]]; discriminate.
  - intros L. destruct is_cg, extruded, ibp, outflow; simpl; intros H;
      try discriminate; injection H as <-; reflexivity.
Qed.

Lemma advection_form_outflow_witness :
  advection_form true false ONCE true = UnboundLocalError.
Proof.
  apply (advection_form_outflow true false ONCE true). auto.
Defined.

End TransportForms.

(** ** The latitude-longitude mesh ([get_latlon_mesh] of
    [gusto/state.py]) *)

Module LatLon.

Definition PI : R := 3.141592653589793.
Definition TWO_PI : R := 6.283185307179586.

(** [fabs(x) > PI] *)
Definition exceeds_PI (x : R) : bool :=
  if Rgt_dec (Rabs x) PI then true else false.

(** [coords[i][0] < 0 ? -1 : 1] *)
Definition sign (x : R) : Z := if Rlt_dec x 0 then (-1)%Z else 1%Z.

(** The kernel [splat_coords] on the longitudes [coords[i][0]] of the
    three vertices of a cell; the other coordinates are not touched. *)
Definition splat_coords (coords : R * R * R) : R * R * R :=
  let '(c0, c1, c2) := coords in
  let diff0 := c0 - c1 in
  let diff1 := c0 - c2 in
  let diff2 := c1 - c2 in
  if exceeds_PI diff0 || exceeds_PI diff1 || exceeds_PI diff2 then
    let sign0 := sign c0 in
    let sign1 := sign c1 in
    let sign2 := sign c2 in
    let c0 := if (sign0 <? 0)%Z then c0 + TWO_PI else c0 in
    let c1 := if (sign1 <? 0)%Z then c1 + TWO_PI else c1 in
    let c2 := if (sign2 <? 0)%Z then c2 + TWO_PI else c2 in
    (c0, c1, c2)
  else coords.

(** What [arctan2] returns lies between [-PI] and [PI]. *)
Definition longitude (x : R) : Prop := - PI <= x <= PI.

Lemma splat_coords_nonneg (c0 c1 c2 : R) :
  0 <= c0 -> 0 <= c1 -> 0 <= c2 ->
  splat_coords (c0, c1, c2) = (c0, c1, c2).
Proof.
  intros H0 H1 H2. unfold splat_coords, sign.
  destruct (_ || _ || _); [|reflexivity].
  destruct (Rlt_dec c0 0), (Rlt_dec c1 0), (Rlt_dec c2 0); try lra.
  reflexivity.
Qed.

Lemma splat_coords_cases (c0 c1 c2 : R) :
  longitude c0 -> longitude c1 -> longitude c2 ->
  splat_coords (c0, c1, c2) = (c0, c1, c2) \/
  exists d0 d1 d2,
    splat_coords (c0, c1, c2) = (d0, d1, d2) /\
    (0 <= d0 <= TWO_PI /\ (d0 = c0 \/ d0 = c0 + TWO_PI)) /\
    (0 <= d1 <= TWO_PI /\ (d1 = c1 \/ d1 = c1 + TWO_PI)) /\
    (0 <= d2 <= TWO_PI /\ (d2 = c2 \/ d2 = c2 + TWO_PI)).
Proof.
  unfold longitude, PI, TWO_PI. intros H0 H1 H2. unfold splat_coords, sign.
  destruct (_ || _ || _); [|left; reflexivity]. right.
  unfold TWO_PI.
  destruct (Rlt_dec c0 0), (Rlt_dec c1 0), (Rlt_dec c2 0); simpl;
    eexists _, _, _; (split; [reflexivity|]);
    repeat split; try lra; auto.
Qed.

(** On longitudes between [-PI] and [PI], [splat_coords] either leaves the
    cell as it is or returns a cell whose longitudes all lie between [0]
    and [TWO_PI]; each longitude is kept or moved by [TWO_PI]; and applying
    the kernel again changes nothing. *)
Theorem splat_coords_idempotent (c0 c1 c2 : R) :
  longitude c0 -> longitude c1 -> longitude c2 ->
  splat_coords (splat_coords (c0, c1, c2)) = splat_coords (c0, c1, c2) /\
  (splat_coords (c0, c1, c2) = (c0, c1, c2) \/
   exists d0 d1 d2,
     splat_coords (c0, c1, c2) = (d0, d1, d2) /\
     (0 <= d0 <= TWO_PI /\ (d0 = c0 \/ d0 = c0 + TWO_PI)) /\
     (0 <= d1 <= TWO_PI /\ (d1 = c1 \/ d1 = c1 + TWO_PI)) /\
     (0 <= d2 <= TWO_PI /\ (d2 = c2 \/ d2 = c2 + TWO_PI))).
Proof.
  intros H0 H1 H2.
  pose proof (splat_coords_cases c0 c1 c2 H0 H1 H2) as Hc.
  split; [|exact Hc].
  destruct Hc as [E | (d0 & d1 & d2 & E & (B0 & _) & (B1 & _) & (B2 & _))].
  - rewrite E. exact E.
  - rewrite E. apply splat_coords_nonneg; lra.
Qed.

Lemma splat_coords_idempotent_witness :
  splat_coords (splat_coords (3, -3, 3)) = splat_coords (3, -3, 3).
Proof.
  apply (splat_coords_idempotent 3 (-3) 3);
    unfold longitude, PI; lra.
Defined.

End LatLon.

(** ** The least absolute value of a field ([minimum] of
    [examples/klemp_mountain.py]) *)

Module KlempMountain.

(** The kernel [minify]: [a[0] = a[0] > fabs(b[0]) ? fabs(b[0]) : a[0]]. *)
Definition minify (a b : R) : R :=
  if Rgt_dec a (Rabs b) then Rabs b else a.

(** [minimum(f)]: the reduction of [minify] over the coefficients of [f],
    started at 1000. *)
Definition minimum (f : list R) : R := fold_left minify f 1000.

Lemma fold_minify_spec (f : list R) :
  forall a : R,
    fold_left minify f a <= a /\
    (forall b, In b f -> fold_left minify f a <= Rabs b) /\
    (fold_left minify f a = a \/
     exists b, In b f /\ fold_left minify f a = Rabs b).
Proof.
  induction f as [|b0 rest IH]; intros a; simpl.
  - split; [lra|]. split; [intros b []|]. left. reflexivity.
  - destruct (IH (minify a b0)) as (Hle & Hall & Hatt).
    assert (Hm : minify a b0 <= a /\ minify a b0 <= Rabs b0 /\
                 (minify a b0 = a \/ minify a b0 = Rabs b0)).
    { unfold minify. destruct (Rgt_dec a (Rabs b0)); lra. }
    destruct Hm as (Hm1 & Hm2 & Hm3).
    split; [lra|]. split.
    + intros b [<-|Hb]; [lra | apply Hall; exact Hb].
    + destruct Hatt as [E | (b & Hb & E)].
      * destruct Hm3 as [E'|E']; rewrite E, E'.
        -- left. reflexivity.
        -- right. exists b0. auto.
      * right. exists b. auto.
Qed.

(** [minimum(f)] is the least of 1000 and the absolute values of the
    coefficients of [f]: it is between 0 and 1000, below every absolute
    value, and equal to 1000 or to one of them; so a field whose absolute
    values all exceed 1000, or an empty one, is reported as 1000. *)
Theorem minimum_spec (f : list R) :
  0 <= minimum f <= 1000 /\
  (forall b, In b f -> minimum f <= Rabs b) /\
  (minimum f = 1000 \/ exists b, In b f /\ minimum f = Rabs b) /\
  ((forall b, In b f -> 1000 <= Rabs b) -> minimum f = 1000).
Proof.
  unfold minimum. destruct (fold_minify_spec f 1000) as (Hle & Hall & Hatt).
  assert (H0 : 0 <= fold_left minify f 1000).
  { destruct Hatt as [E | (b & _ & E)]; rewrite E;
      [lra | apply Rabs_pos]. }
  repeat split; try assumption.
  intros Hbig. destruct Hatt as [E | (b & Hb & E)]; [exact E|].
  specialize (Hbig b Hb). lra.
Qed.

Lemma minimum_spec_witness : minimum [2000; -3000] = 1000.
Proof.
  apply (minimum_spec [2000; -3000]).
  intros b [<-|[<-|[]]]; unfold Rabs; destruct (Rcase_abs _); lra.
Defined.

End KlempMountain.
